(** * jsanalyzer: a shallow embedding of [jsanalyzer.py]

    The script fetches a list of JavaScript sources, beautifies the ones it
    could fetch, sends them to an external oracle through a thread pool,
    extracts URL-like and credential-like substrings with two regular
    expressions and writes one Markdown file per fetched source.

    Conventions of the embedding.
    - A Python [str] is a [list ascii]; a character is read as the code
      point of the same number, so the embedding covers texts whose code
      points are below 256.  Character classes follow CPython on that range.
    - External capabilities (HTTP, the file system, the oracle, the
      beautifier) are parameters.
    - [os.path] is [posixpath].
    - Library routines the script calls ([str] methods, [re], [asyncio.gather],
      [ThreadPoolExecutor], [list.sort]) are modelled from their CPython
      behaviour, next to the functions of the script that use them. *)

From Stdlib Require Import Ascii String DecimalString.
From stdpp Require Import base gmap sets list strings sorting.

Open Scope list_scope.

(** String literals of the script. *)
Definition lit (s : string) : list ascii := list_ascii_of_string s.

(** The double quote and the apostrophe, by code point. *)
Definition dquote : ascii := "034"%char.
Definition squote : ascii := "039"%char.
Definition newline : ascii := "010"%char.

(** ** Python string methods *)

Module PyStr.

Definition code (c : ascii) : N := N_of_ascii c.

Definition in_range (lo hi : N) (c : ascii) : bool :=
  ((lo <=? code c) && (code c <=? hi))%N.

(** [str.isspace] on one character (the set used by [str.strip] and by
    the class [\s] of [re]): U+0009..U+000D, U+001C..U+0020, U+0085, U+00A0. *)
Definition isspace (c : ascii) : bool :=
  in_range 9 13 c || in_range 28 32 c || (code c =? 133)%N || (code c =? 160)%N.

(** [str.isalnum] on one character: letters, digits and numeric characters
    of Unicode below 256. *)
Definition isalnum (c : ascii) : bool :=
  in_range 48 57 c || in_range 65 90 c || in_range 97 122 c
  || (code c =? 170)%N || in_range 178 179 c || (code c =? 181)%N
  || in_range 185 186 c || in_range 188 190 c
  || in_range 192 214 c || in_range 216 246 c || in_range 248 255 c.

(** Simple lower-case mapping below 256. *)
Definition lower (c : ascii) : ascii :=
  if in_range 65 90 c || in_range 192 214 c || in_range 216 222 c
  then ascii_of_N (code c + 32) else c.

(** [s.startswith(p)] *)
Fixpoint startswith (p s : list ascii) : bool :=
  match p, s with
  | [], _ => true
  | a :: p', b :: s' => Ascii.eqb a b && startswith p' s'
  | _ :: _, [] => false
  end.

(** [s.lstrip()], [s.rstrip()], [s.strip()] *)
Fixpoint lstrip (s : list ascii) : list ascii :=
  match s with
  | c :: s' => if isspace c then lstrip s' else s
  | [] => []
  end.

Definition rstrip (s : list ascii) : list ascii := rev (lstrip (rev s)).

Definition strip (s : list ascii) : list ascii := rstrip (lstrip s).

(** [s.split(sep)[0]] for a one-character separator: the text before the
    first occurrence of [sep], the whole of [s] when there is none. *)
Fixpoint split_first (sep : ascii) (s : list ascii) : list ascii :=
  match s with
  | [] => []
  | c :: s' => if Ascii.eqb c sep then [] else c :: split_first sep s'
  end.

(** [s.replace(old, new)] for a non-empty [old]: occurrences are found
    left to right and do not overlap.  [skip] counts the characters of an
    occurrence that are still to be passed over. *)
Fixpoint replace_go (old new : list ascii) (skip : nat) (s : list ascii)
  : list ascii :=
  match s with
  | [] => []
  | c :: s' =>
      match skip with
      | S k => replace_go old new k s'
      | O =>
          if startswith old s
          then new ++ replace_go old new (length old - 1) s'
          else c :: replace_go old new 0 s'
      end
  end.

Definition replace (old new s : list ascii) : list ascii :=
  replace_go old new 0 s.

(** [sep.join(xs)] *)
Fixpoint join (sep : list ascii) (xs : list (list ascii)) : list ascii :=
  match xs with
  | [] => []
  | [x] => x
  | x :: xs' => x ++ sep ++ join sep xs'
  end.

(** [str(n)] for a natural number. *)
Definition of_N (n : N) : list ascii :=
  list_ascii_of_string (NilZero.string_of_uint (N.to_uint n)).

(** Comparison of two strings, by code point ([<=] of Python). *)
Fixpoint leb (a b : list ascii) : bool :=
  match a, b with
  | [], _ => true
  | _ :: _, [] => false
  | x :: a', y :: b' =>
      if (code x <? code y)%N then true
      else if (code y <? code x)%N then false
      else leb a' b'
  end.

(** [posixpath.basename(p)]: what follows the last slash. *)
Fixpoint basename (p : list ascii) : list ascii :=
  match p with
  | [] => []
  | _ :: p' => if existsb (Ascii.eqb "/") p then basename p' else p
  end.

End PyStr.

(** ** The part of [re] the script uses

    Patterns are terms of [regex]; the matcher is a backtracking matcher in
    continuation-passing style, trying alternatives left to right and
    repetitions longest first, as [re] does.  A repetition is always of one
    character class, which is all the two patterns of the script need. *)

Module Re.

Inductive regex : Type :=
| Chr (c : ascii)                     (* a literal character *)
| Cls (p : ascii -> bool)             (* a character class *)
| Cat (r1 r2 : regex)                 (* r1 r2 *)
| Alt (r1 r2 : regex)                 (* r1|r2 *)
| Opt (r : regex)                     (* r? *)
| Rep (n : nat) (p : ascii -> bool)   (* [p]{n,} *)
| Grp (r : regex).                    (* (r), the capturing group *)

(** A literal word. *)
Fixpoint Lit (w : list ascii) : regex :=
  match w with
  | [] => Opt (Cls (fun _ => false))
  | [c] => Chr c
  | c :: w' => Cat (Chr c) (Lit w')
  end.

(** With [re.IGNORECASE] a literal matches a character of the same
    lower case.  A class without cased literals is compiled unchanged. *)
Definition chr_match (ic : bool) (c x : ascii) : bool :=
  if ic then Ascii.eqb (PyStr.lower x) (PyStr.lower c) else Ascii.eqb x c.

Section Matcher.
Context {R : Type}.

(** [p]{n,}, longest first, giving characters back one at a time. *)
Fixpoint rep_cls (p : ascii -> bool) (n : nat) (s : list ascii)
  (k : list ascii -> option R) : option R :=
  match s with
  | c :: s' =>
      if p c then
        match rep_cls p (pred n) s' k with
        | Some r => Some r
        | None => if Nat.eqb n 0 then k s else None
        end
      else if Nat.eqb n 0 then k s else None
  | [] => if Nat.eqb n 0 then k [] else None
  end.

(** [re_match ic r s cap k]: match [r] at the head of [s], then go on
    with [k] on the rest and on the text of the group. *)
Fixpoint re_match (ic : bool) (r : regex) (s : list ascii)
  (cap : option (list ascii))
  (k : list ascii -> option (list ascii) -> option R) : option R :=
  match r with
  | Chr c =>
      match s with
      | x :: s' => if chr_match ic c x then k s' cap else None
      | [] => None
      end
  | Cls p =>
      match s with
      | x :: s' => if p x then k s' cap else None
      | [] => None
      end
  | Cat r1 r2 =>
      re_match ic r1 s cap (fun s' cap' => re_match ic r2 s' cap' k)
  | Alt r1 r2 =>
      match re_match ic r1 s cap k with
      | Some x => Some x
      | None => re_match ic r2 s cap k
      end
  | Opt r1 =>
      match re_match ic r1 s cap k with
      | Some x => Some x
      | None => k s cap
      end
  | Rep n p => rep_cls p n s (fun s' => k s' cap)
  | Grp r1 =>
      re_match ic r1 s cap
        (fun s' _ => k s' (Some (take (length s - length s') s)))
  end.
End Matcher.

(** A match at the head of [s]: the text of the group, if any, and the
    rest of [s] after the match. *)
Definition match_at (ic : bool) (r : regex) (s : list ascii)
  : option (option (list ascii) * list ascii) :=
  re_match ic r s None (fun s' cap => Some (cap, s')).

Fixpoint has_group (r : regex) : bool :=
  match r with
  | Chr _ | Cls _ | Rep _ _ => false
  | Cat r1 r2 | Alt r1 r2 => has_group r1 || has_group r2
  | Opt r1 => has_group r1
  | Grp _ => true
  end.

(** What [re.findall] reports for one match: the group when the pattern
    has one, the whole match otherwise. *)
Definition item (r : regex) (s : list ascii)
  (m : option (list ascii) * list ascii) : list ascii :=
  if has_group r then default [] (fst m)
  else take (length s - length (snd m)) s.

(** [re.findall], for a pattern that matches no empty text: scan left to
    right, report a match where there is one and go on after it. *)
Fixpoint findall_go (ic : bool) (r : regex) (skip : nat) (s : list ascii)
  : list (list ascii) :=
  match s with
  | [] => []
  | _ :: s' =>
      match skip with
      | S k => findall_go ic r k s'
      | O =>
          match match_at ic r s with
          | Some m =>
              item r s m
                :: findall_go ic r (length s - length (snd m) - 1) s'
          | None => findall_go ic r 0 s'
          end
      end
  end.

Definition findall (ic : bool) (r : regex) (s : list ascii)
  : list (list ascii) :=
  findall_go ic r 0 s.

(** [re.sub] with a constant replacement, same scan. *)
Fixpoint sub_go (ic : bool) (r : regex) (repl : list ascii) (skip : nat)
  (s : list ascii) : list ascii :=
  match s with
  | [] => []
  | c :: s' =>
      match skip with
      | S k => sub_go ic r repl k s'
      | O =>
          match match_at ic r s with
          | Some m =>
              repl ++ sub_go ic r repl (length s - length (snd m) - 1) s'
          | None => c :: sub_go ic r repl 0 s'
          end
      end
  end.

Definition sub (ic : bool) (r : regex) (repl s : list ascii) : list ascii :=
  sub_go ic r repl 0 s.

(** The classes of the script's patterns. *)
Definition one_of (cs : list ascii) (c : ascii) : bool :=
  existsb (Ascii.eqb c) cs.

(** [\s] and [\w] *)
Definition space : ascii -> bool := PyStr.isspace.
Definition word (c : ascii) : bool := PyStr.isalnum c || Ascii.eqb c "_".

End Re.

Import Re.

(** ** The Extractor: [extract_info] *)

(** The pattern of URLs: [http], an optional [s], [://], then one or more
    characters that are neither white space nor a quote of either kind. *)
Definition url_char (c : ascii) : bool :=
  negb (Re.space c || one_of [squote; dquote] c).

Definition url_re : regex :=
  Cat (Lit (lit "http")) (Cat (Opt (Chr "s")) (Cat (Lit (lit "://")) (Rep 1 url_char))).

(** The pattern of credentials, compiled with [re.IGNORECASE]:
    [(?:api[_-]?key|token|secret)], then [[\s=:]+], then an optional quote of
    either kind, then the group [([\w-]{8,})]. *)
Definition sep_char (c : ascii) : bool := Re.space c || one_of ["="; ":"]%char c.
Definition quote_char (c : ascii) : bool := one_of [dquote; squote] c.
Definition value_char (c : ascii) : bool := Re.word c || one_of ["-"%char] c.

Definition keyword_re : regex :=
  Alt (Cat (Lit (lit "api")) (Cat (Opt (Cls (one_of ["_"; "-"]%char))) (Lit (lit "key"))))
      (Alt (Lit (lit "token")) (Lit (lit "secret"))).

Definition token_re : regex :=
  Cat keyword_re
      (Cat (Rep 1 sep_char) (Cat (Opt (Cls quote_char)) (Grp (Rep 8 value_char)))).

(** [list(set(xs))]: the members of [xs], each once, in an order that
    depends on the hashes of the strings and so on the process.  An
    enumeration is any function with these two properties. *)
Record PySet : Type := {
  list_set : list (list ascii) -> list (list ascii);
  list_set_NoDup : forall xs, NoDup (list_set xs);
  list_set_elem : forall xs x, x ∈ list_set xs <-> x ∈ xs
}.

(** One enumeration: the elements of the finite set of the members. *)
Definition gset_list (xs : list (list ascii)) : list (list ascii) :=
  elements (list_to_set xs : gset (list ascii)).

Definition gset_order : PySet :=
  {| list_set := gset_list;
     list_set_NoDup := fun xs => NoDup_elements (list_to_set xs : gset (list ascii));
     list_set_elem := fun xs x =>
       iff_trans (elem_of_elements (list_to_set xs : gset (list ascii)) x)
                 (elem_of_list_to_set x xs) |}.

Record Findings : Type := { urls : list (list ascii); tokens : list (list ascii) }.

Definition extract_info (o : PySet) (code : list ascii) : Findings :=
  let found_urls := findall false url_re code in
  let found_tokens := findall true token_re code in
  {| urls := list_set o found_urls; tokens := list_set o found_tokens |}.

(** ** The Fetcher: [get_js_content] and [gather_all] *)

Inductive http_outcome : Type :=
| HttpResponse (status_code : N) (text : list ascii)
| HttpRaise (e : list ascii).

Inductive read_outcome : Type :=
| ReadText (text : list ascii)
| ReadRaise (e : list ascii).

(** What one fetch task observes of the network and of the file system. *)
Record World : Type := {
  http_get : list ascii -> http_outcome;
  path_exists : list ascii -> bool;
  read_file : list ascii -> read_outcome
}.

Definition get_js_content (w : World) (path : list ascii)
  : list ascii * list ascii :=
  if PyStr.startswith (lit "http") path then
    match http_get w path with
    | HttpResponse status_code text =>
        (path, if (status_code =? 200)%N then text
               else lit "[ERROR] HTTP " ++ PyStr.of_N status_code)
    | HttpRaise e => (path, lit "[ERROR] " ++ e)
    end
  else if path_exists w path then
    match read_file w path with
    | ReadText text => (path, text)
    | ReadRaise e => (path, lit "[ERROR] " ++ e)
    end
  else (path, lit "[ERROR] Invalid path").

(** [asyncio.gather]: one slot per awaitable, in the order of the
    arguments; a task that completes fills its own slot; the list of the
    slots is returned once every slot is filled.  [order] is the order in
    which the event loop completes the tasks. *)
Definition fill_slot {A} (outcomes : list A) (slots : list (option A)) (i : nat)
  : list (option A) :=
  match outcomes !! i with
  | Some r => <[i := Some r]> slots
  | None => slots
  end.

Definition gather {A} (outcomes : list A) (order : list nat) : option (list A) :=
  mapM id (foldl (fill_slot outcomes) (replicate (length outcomes) None) order).

(** Task [i] observes the world [w i]. *)
Definition gather_all (w : nat -> World) (order : list nat)
  (paths : list (list ascii)) : option (list (list ascii * list ascii)) :=
  let tasks := imap (fun i p => get_js_content (w i) p) paths in
  gather tasks order.

(** ** The Analyzer: [explain_with_gemini] and [batch_explain_with_gemini] *)

Inductive oracle_outcome : Type :=
| Response (text : list ascii)
| OracleRaise (e : list ascii).

Definition prompt_head : list ascii := lit "
    Analyze this JavaScript code and explain in detail:
    - Any secrets, hardcoded API keys, suspicious logic?
    - Any security risks like eval, setTimeout with string, or tokens?

    JS Code:
    ".

Definition prompt_tail : list ascii := lit "
    ".

Definition explain_with_gemini (generate_content : list ascii -> oracle_outcome)
  (code : list ascii) : list ascii :=
  let prompt := prompt_head ++ code ++ prompt_tail in
  match generate_content prompt with
  | Response text => PyStr.strip text
  | OracleRaise e => lit "[ERROR] Gemini failed: " ++ e
  end.

(** Lines the script prints. *)
Inductive message : Type :=
| MsgInputNotFound
| MsgNoPaths
| MsgSkipped (path error : list ascii)
| MsgNoValid
| MsgSending (files : nat) (threads : Z)
| MsgMayTakeTime
| MsgFinished (file_number : nat)
| MsgSaved (name : list ascii)
| MsgDone.

(** The result of running a piece of the script along given schedules:
    it returns, it raises, or the schedules are not those of a complete
    execution. *)
Inductive run (A : Type) : Type :=
| Returned (a : A)
| Raised (e : list ascii)
| NoRun.
Arguments Returned {A} a.
Arguments Raised {A} e.
Arguments NoRun {A}.

Definition run_bind {A B} (m : run A) (f : A -> run B) : run B :=
  match m with
  | Returned a => f a
  | Raised e => Raised e
  | NoRun => NoRun
  end.

Notation "'do' x <~ m ; k" := (run_bind m (fun x => k))
  (at level 10, x name, m at level 100, k at level 200, only parsing).

(** *** The thread pool

    [ThreadPoolExecutor(max_workers)] as CPython implements it: [submit]
    puts a work item on a queue and starts a new worker thread unless an
    idle worker was counted by the semaphore or [max_workers] threads exist;
    a worker takes the item at the head of the queue, runs it, stores the
    outcome in the future of the item, counts itself idle and starts over.
    [as_completed] hands the finished futures to the main thread, in any
    order. *)

Inductive future : Type :=
| FResult (r : list ascii)
| FException (e : list ascii).

Record pool : Type := {
  pending : list (nat * list ascii);          (* items still to submit *)
  queue : list (nat * list ascii);            (* the work queue *)
  threads : list (option (nat * list ascii)); (* workers: idle, or running an item *)
  idle_sem : nat;                             (* the idle semaphore *)
  finished : gmap nat future;                 (* futures done, not yet yielded *)
  results : list (nat * list ascii);          (* [results] of the script *)
  printed : list message
}.

Inductive action : Type :=
| Submit              (* the main thread submits the next item *)
| Take (t : nat)      (* worker [t] takes the head of the queue *)
| Finish (t : nat)    (* worker [t] finishes its item *)
| Yield (idx : nat).  (* [as_completed] yields the future of item [idx] *)

Definition enumerate {A} (l : list A) : list (nat * A) := imap (fun i x => (i, x)) l.

Definition pool_init (beautified_list : list (list ascii)) : pool :=
  {| pending := enumerate beautified_list; queue := []; threads := [];
     idle_sem := 0; finished := ∅; results := []; printed := [] |}.

(** The calls to the oracle that are in flight: the items the workers run. *)
Definition in_flight (s : pool) : list (nat * list ascii) := omap id (threads s).

Section Pool.
Variable oracle : nat -> list ascii -> oracle_outcome.
Variable max_workers : Z.
Variable verbose : bool.

Definition pool_step (a : action) (s : pool) : option pool :=
  match a with
  | Submit =>
      match pending s with
      | item :: rest =>
          let '(threads', idle') :=
            match idle_sem s with
            | S n => (threads s, n)
            | O => if (Z.of_nat (length (threads s)) <? max_workers)%Z
                   then (threads s ++ [None], 0)
                   else (threads s, 0)
            end in
          Some {| pending := rest; queue := queue s ++ [item];
                  threads := threads'; idle_sem := idle';
                  finished := finished s; results := results s;
                  printed := printed s |}
      | [] => None
      end
  | Take t =>
      match threads s !! t, queue s with
      | Some None, item :: rest =>
          Some {| pending := pending s; queue := rest;
                  threads := <[t := Some item]> (threads s);
                  idle_sem := idle_sem s; finished := finished s;
                  results := results s; printed := printed s |}
      | _, _ => None
      end
  | Finish t =>
      match threads s !! t with
      | Some (Some (idx, code)) =>
          let r := explain_with_gemini (oracle idx) code in
          Some {| pending := pending s; queue := queue s;
                  threads := <[t := None]> (threads s);
                  idle_sem := S (idle_sem s);
                  finished := <[idx := FResult r]> (finished s);
                  results := results s; printed := printed s |}
      | _ => None
      end
  | Yield idx =>
      match pending s, finished s !! idx with
      | [], Some f =>
          let result :=
            match f with
            | FResult r => r
            | FException e => lit "[ERROR] Gemini failed: " ++ e
            end in
          Some {| pending := []; queue := queue s; threads := threads s;
                  idle_sem := idle_sem s;
                  finished := delete idx (finished s);
                  results := results s ++ [(idx, result)];
                  printed := printed s ++
                             (if verbose then [MsgFinished (idx + 1)] else []) |}
      | _, _ => None
      end
  end.

Fixpoint pool_run (tr : list action) (s : pool) : option pool :=
  match tr with
  | [] => Some s
  | a :: tr' =>
      match pool_step a s with
      | Some s' => pool_run tr' s'
      | None => None
      end
  end.
End Pool.

(** [results.sort()]: the order of Python on pairs of an index and a string. *)
Definition tuple_le (a b : nat * list ascii) : Prop :=
  a.1 < b.1 \/ (a.1 = b.1 /\ PyStr.leb a.2 b.2 = true).

Global Instance tuple_le_dec : RelDecision tuple_le.
Proof. intros a b. unfold tuple_le. apply _. Defined.

Definition batch_explain_with_gemini (oracle : nat -> list ascii -> oracle_outcome)
  (tr : list action) (beautified_list : list (list ascii))
  (max_workers : Z) (verbose : bool) : run (list (list ascii) * list message) :=
  if (max_workers <=? 0)%Z then Raised (lit "max_workers must be greater than 0")
  else
    match pool_run oracle max_workers verbose tr (pool_init beautified_list) with
    | Some s =>
        match pending s with
        | [] =>
            if Nat.eqb (length (results s)) (length beautified_list)
            then Returned (map snd (merge_sort tuple_le (results s)), printed s)
            else NoRun
        | _ :: _ => NoRun
        end
    | None => NoRun
    end.

(** ** The Recorder: the name of the output and [save_output] *)

(** The class of the characters replaced in a name: backslash, slash, star,
    question mark, colon, double quote, angle brackets, bar. *)
Definition unsafe_chars : list ascii :=
  ["\"; "/"; "*"; "?"; ":"; dquote; "<"; ">"; "|"]%char.

Definition unsafe_re : regex := Cls (one_of unsafe_chars).

(** [base] and [name] of the loop of [main]. *)
Definition output_base (path : list ascii) : list ascii :=
  PyStr.split_first "?" (PyStr.basename path).

Definition output_name (path : list ascii) : list ascii :=
  Re.sub false unsafe_re (lit "_") (PyStr.replace (lit ".js") [] (output_base path)).

(** [posixpath.join] of two components. *)
Definition path_join (a b : list ascii) : list ascii :=
  if PyStr.startswith (lit "/") b then b
  else match last a with
       | None => b
       | Some c => if Ascii.eqb c "/" then a ++ b else a ++ lit "/" ++ b
       end.

Definition md_path (out_dir name : list ascii) : list ascii :=
  path_join out_dir (name ++ lit ".md").

Definition md_content (explanation : list ascii) (extracted : Findings)
  : list ascii :=
  (lit "## AI Explanation" ++ [newline] ++ explanation ++ [newline])
  ++ ([newline] ++ lit "## Extracted URLs:" ++ [newline]
      ++ PyStr.join [newline] (urls extracted) ++ [newline])
  ++ ([newline] ++ lit "## Extracted Tokens:" ++ [newline]
      ++ PyStr.join [newline] (tokens extracted) ++ [newline]).

(** The files are a map from paths to contents; opening with mode [w]
    replaces what was there. *)
Definition save_output (name explanation : list ascii) (extracted : Findings)
  (out_dir : list ascii) (fs : gmap (list ascii) (list ascii))
  : gmap (list ascii) (list ascii) :=
  <[md_path out_dir name := md_content explanation extracted]> fs.

(** ** The driver: [main] *)

Record Args : Type := {
  input : list ascii;
  verbose : bool;
  thread : Z;
  quiet : bool
}.

(** What a run of [main] meets outside of the script. *)
Record Env : Type := {
  input_exists : bool;                       (* os.path.exists(args.input) *)
  input_lines : list (list ascii);           (* the lines of the input file *)
  world : nat -> World;                      (* what fetch task i observes *)
  fetch_order : list nat;                    (* completion order of the fetches *)
  beautify_js : list ascii -> list ascii;    (* jsbeautifier.beautify *)
  oracle : nat -> list ascii -> oracle_outcome; (* model.generate_content in call i *)
  pool_trace : list action;                  (* schedule of the thread pool *)
  hash_order : PySet                         (* iteration order of sets *)
}.

(** One call of [save_output]. *)
Record Saved : Type := {
  saved_name : list ascii;
  saved_explanation : list ascii;
  saved_extracted : Findings
}.

Record Outcome : Type := {
  stdout : list message;
  out_valid_js : list (list ascii * list ascii);
  out_errored : list (list ascii * list ascii);
  out_beautified : list (list ascii);        (* what the Analyzer received *)
  out_saved : list Saved;                    (* the calls of save_output, in order *)
  out_files : gmap (list ascii) (list ascii)
}.

Definition is_error (content : list ascii) : bool :=
  PyStr.startswith (lit "[ERROR]") content.

Definition valid_of (raw_results : list (list ascii * list ascii))
  : list (list ascii * list ascii) :=
  List.filter (fun pc => negb (is_error pc.2)) raw_results.

Definition errored_of (raw_results : list (list ascii * list ascii))
  : list (list ascii * list ascii) :=
  List.filter (fun pc => is_error pc.2) raw_results.

Definition read_paths (lines : list (list ascii)) : list (list ascii) :=
  List.filter (fun l => negb (Nat.eqb (length l) 0)) (map PyStr.strip lines).

Definition clamp_threads (t : Z) : Z := Z.max 1 (Z.min t 10).

(** The loop over [enumerate(valid_js)]. *)
Fixpoint save_loop (a : Args) (o : PySet) (i : nat)
  (items : list (list ascii * list ascii)) (explanations : list (list ascii))
  (acc : list message * list Saved * gmap (list ascii) (list ascii))
  : run (list message * list Saved * gmap (list ascii) (list ascii)) :=
  match items with
  | [] => Returned acc
  | (path, code) :: rest =>
      let name := output_name path in
      let extracted := extract_info o code in
      match explanations !! i with
      | None => Raised (lit "list index out of range")
      | Some explanation =>
          let '(out, saved, fs) := acc in
          save_loop a o (S i) rest explanations
            (out ++ (if verbose a && negb (quiet a) then [MsgSaved name] else []),
             saved ++ [{| saved_name := name; saved_explanation := explanation;
                          saved_extracted := extracted |}],
             save_output name explanation extracted (lit "output") fs)
      end
  end.

Definition early (out : list message) (valid errored : list (list ascii * list ascii))
  : Outcome :=
  {| stdout := out; out_valid_js := valid; out_errored := errored;
     out_beautified := []; out_saved := []; out_files := ∅ |}.

Definition main (a : Args) (e : Env) : run Outcome :=
  let max_workers := clamp_threads (thread a) in
  if negb (input_exists e) then Returned (early [MsgInputNotFound] [] [])
  else
    let paths := read_paths (input_lines e) in
    match paths with
    | [] => Returned (early [MsgNoPaths] [] [])
    | _ :: _ =>
        match gather_all (world e) (fetch_order e) paths with
        | None => NoRun
        | Some raw_results =>
            let valid_js := valid_of raw_results in
            let errored := errored_of raw_results in
            let out1 :=
              if quiet a then []
              else map (fun pe => MsgSkipped pe.1 pe.2) errored in
            match valid_js with
            | [] => Returned (early (out1 ++ [MsgNoValid]) valid_js errored)
            | _ :: _ =>
                let beautified_codes := map (fun pc => beautify_js e pc.2) valid_js in
                let out2 :=
                  out1 ++ (if quiet a then []
                           else [MsgSending (length beautified_codes) max_workers;
                                 MsgMayTakeTime]) in
                do b <~ batch_explain_with_gemini (oracle e) (pool_trace e)
                          beautified_codes max_workers (verbose a) ;
                do r <~ save_loop a (hash_order e) 0 valid_js b.1 (out2 ++ b.2, [], ∅) ;
                Returned
                  {| stdout := r.1.1 ++ (if quiet a then [] else [MsgDone]);
                     out_valid_js := valid_js; out_errored := errored;
                     out_beautified := beautified_codes;
                     out_saved := r.1.2; out_files := r.2 |}
            end
        end
    end.

(** ** Definitions that follow the words of the specification

    They are compared with the definitions above, which follow the code. *)

(** The name of an output as the specification words it: the final segment
    of the path, without the query string, without the suffix [.js], each
    unsafe character replaced by the placeholder and nothing else changed. *)
Definition strip_suffix (suffix s : list ascii) : list ascii :=
  if PyStr.startswith (rev suffix) (rev s)
  then take (length s - length suffix) s else s.

Definition spec_output_name (path : list ascii) : list ascii :=
  map (fun c => if one_of unsafe_chars c then "_"%char else c)
      (strip_suffix (lit ".js") (PyStr.split_first "?" (PyStr.basename path))).

(** A credential-like substring as the specification words it: a keyword in
    any case, separators, an optional quote, and a run [v] of at least eight
    word characters or hyphens; [pre] and [post] are what surrounds it. *)
Definition keywords : list (list ascii) :=
  [lit "api_key"; lit "api-key"; lit "apikey"; lit "token"; lit "secret"].

Definition is_keyword (w : list ascii) : Prop := PyStr.lower <$> w ∈ keywords.

Definition is_quote (q : list ascii) : Prop :=
  q = [] \/ exists c, q = [c] /\ quote_char c = true.

Definition cred_at (text pre v post : list ascii) : Prop :=
  exists w seps q,
    text = pre ++ w ++ seps ++ q ++ v ++ post
    /\ is_keyword w
    /\ seps <> [] /\ Forall (fun c => sep_char c = true) seps
    /\ is_quote q
    /\ 8 <= length v /\ Forall (fun c => value_char c = true) v.

(** The run [v] is not continued by [post]. *)
Definition run_ends (post : list ascii) : Prop :=
  match post with
  | [] => True
  | c :: _ => value_char c = false
  end.

(** The scan of the text for credentials, left to right and without
    overlap: [scan text q p] says that a scan standing on position [q]
    comes to stand on position [p].  Standing on a position where a credential
    starts, the scan goes on right after the run of that credential; from
    any other position it goes on one character further. *)
Inductive scan (text : list ascii) : nat -> nat -> Prop :=
| scan_here q : scan text q q
| scan_skip q p :
    q < length text ->
    (forall v post, ~ (cred_at text (take q text) v post /\ run_ends post)) ->
    scan text (S q) p -> scan text q p
| scan_match q p v post :
    cred_at text (take q text) v post -> run_ends post ->
    scan text (length text - length post) p -> scan text q p.

(** ** The credential pattern without backtracking

    The same match written as a function that reads the text once; it is
    proved equal to the matcher on [token_re] and is what links the matcher
    to [cred_at]. *)

Fixpoint take_while (p : ascii -> bool) (s : list ascii) : list ascii :=
  match s with
  | c :: s' => if p c then c :: take_while p s' else []
  | [] => []
  end.

Fixpoint drop_while (p : ascii -> bool) (s : list ascii) : list ascii :=
  match s with
  | c :: s' => if p c then drop_while p s' else s
  | [] => []
  end.

(** The rest of [s] after the literal word [w]. *)
Fixpoint strip_lit (ic : bool) (w s : list ascii) : option (list ascii) :=
  match w with
  | [] => Some s
  | c :: w' =>
      match s with
      | x :: s' => if chr_match ic c x then strip_lit ic w' s' else None
      | [] => None
      end
  end.

(** The rest of [s] after a keyword. *)
Definition keyword_rest (s : list ascii) : option (list ascii) :=
  match strip_lit true (lit "api") s with
  | Some s1 =>
      match s1 with
      | c :: s1' =>
          if one_of ["_"; "-"]%char c then strip_lit true (lit "key") s1'
          else strip_lit true (lit "key") s1
      | [] => None
      end
  | None =>
      match strip_lit true (lit "token") s with
      | Some s1 => Some s1
      | None => strip_lit true (lit "secret") s
      end
  end.

Definition skip_quote (s : list ascii) : list ascii :=
  match s with
  | c :: s' => if quote_char c then s' else s
  | [] => []
  end.

(** The value and the rest of a credential that starts at the head of [s]. *)
Definition token_at (s : list ascii) : option (list ascii * list ascii) :=
  match keyword_rest s with
  | Some s1 =>
      if 1 <=? length (take_while sep_char s1) then
        let s3 := skip_quote (drop_while sep_char s1) in
        if 8 <=? length (take_while value_char s3)
        then Some (take_while value_char s3, drop_while value_char s3)
        else None
      else None
  | None => None
  end.

(** A decomposition of [s] as the specification words a credential, with a
    run that [rest] does not continue. *)
Definition cred_here (s v rest : list ascii) : Prop :=
  exists w seps q,
    s = w ++ seps ++ q ++ v ++ rest
    /\ is_keyword w
    /\ seps <> [] /\ Forall (fun c => sep_char c = true) seps
    /\ is_quote q
    /\ 8 <= length v /\ Forall (fun c => value_char c = true) v
    /\ run_ends rest.

(** ** The invariant of the thread pool *)

(** The indices of the items, by the place where each item is. *)
Definition pool_keys (s : pool) : list nat :=
  (pending s).*1 ++ (queue s).*1 ++ (in_flight s).*1
  ++ (map_to_list (finished s)).*1 ++ (results s).*1.

Record pool_inv (oracle : nat -> list ascii -> oracle_outcome) (max_workers : Z)
  (texts : list (list ascii)) (s : pool) : Prop := {
  (* every item is in one place *)
  inv_keys : pool_keys s ≡ₚ seq 0 (length texts);
  (* an item that waits or runs carries its text *)
  inv_items : forall i c,
    (i, c) ∈ pending s ++ queue s ++ in_flight s -> texts !! i = Some c;
  (* a finished future holds the explanation of its own text *)
  inv_finished : forall i f,
    finished s !! i = Some f ->
    exists c, texts !! i = Some c /\ f = FResult (explain_with_gemini (oracle i) c);
  inv_results : forall i r,
    (i, r) ∈ results s ->
    exists c, texts !! i = Some c /\ r = explain_with_gemini (oracle i) c;
  (* no more than [max_workers] threads *)
  inv_threads : (Z.of_nat (length (threads s)) <= Z.max 0 max_workers)%Z;
  (* work waits only when a thread exists to take it *)
  inv_alive : (1 <= max_workers)%Z -> threads s = [] -> queue s = [] /\ idle_sem s = 0
}.

(** What is left to do: each item is submitted, taken, finished, yielded. *)
Definition pool_measure (s : pool) : nat :=
  4 * length (pending s) + 3 * length (queue s) + 2 * length (in_flight s)
  + size (finished s).

(** ** What a run of [main] computes, item by item *)

(** The results of the fetches: task [i] fetches path [i]. *)
Definition raw_results_of (e : Env) : list (list ascii * list ascii) :=
  if input_exists e
  then imap (fun i p => get_js_content (world e i) p) (read_paths (input_lines e))
  else [].

(** The call of [save_output] for item [i] of [valid_js]. *)
Definition saved_of (e : Env) (i : nat) (pc : list ascii * list ascii) : Saved :=
  {| saved_name := output_name pc.1;
     saved_explanation := explain_with_gemini (oracle e i) (beautify_js e pc.2);
     saved_extracted := extract_info (hash_order e) pc.2 |}.

Definition pair_saved (o : PySet) (pc : list ascii * list ascii)
  (explanation : list ascii) : Saved :=
  {| saved_name := output_name pc.1; saved_explanation := explanation;
     saved_extracted := extract_info o pc.2 |}.

Definition write_saved (fs : gmap (list ascii) (list ascii)) (sv : Saved)
  : gmap (list ascii) (list ascii) :=
  save_output (saved_name sv) (saved_explanation sv) (saved_extracted sv)
    (lit "output") fs.

Definition saved_messages (a : Args) (items : list (list ascii * list ascii))
  : list message :=
  if verbose a && negb (quiet a)
  then (fun pc => MsgSaved (output_name pc.1)) <$> items else [].

(** The same run under other schedules. *)
Definition reschedule (e : Env) (order : list nat) (tr : list action) : Env :=
  {| input_exists := input_exists e; input_lines := input_lines e;
     world := world e; fetch_order := order; beautify_js := beautify_js e;
     oracle := oracle e; pool_trace := tr; hash_order := hash_order e |}.

(** The same run with another oracle and another schedule of the pool. *)
Definition with_oracle (e : Env) (orc : nat -> list ascii -> oracle_outcome)
  (tr : list action) : Env :=
  {| input_exists := input_exists e; input_lines := input_lines e;
     world := world e; fetch_order := fetch_order e; beautify_js := beautify_js e;
     oracle := orc; pool_trace := tr; hash_order := hash_order e |}.

(** The result of a fetch as the specification words it: content, or an
    error with its cause. *)
Inductive FetchResult : Type :=
| Content (text : list ascii)
| Error (cause : list ascii).

Definition fetch_result (w : World) (path : list ascii) : FetchResult :=
  if PyStr.startswith (lit "http") path then
    match http_get w path with
    | HttpResponse status_code text =>
        if (status_code =? 200)%N then Content text
        else Error (lit "HTTP " ++ PyStr.of_N status_code)
    | HttpRaise e => Error e
    end
  else if path_exists w path then
    match read_file w path with
    | ReadText text => Content text
    | ReadRaise e => Error e
    end
  else Error (lit "Invalid path").

(** What [main] has done when it returns. *)
Definition main_post (a : Args) (e : Env) (o : Outcome) : Prop :=
  out_valid_js o = valid_of (raw_results_of e)
  /\ out_errored o = errored_of (raw_results_of e)
  /\ out_beautified o = (fun pc => beautify_js e pc.2) <$> out_valid_js o
  /\ out_saved o = imap (saved_of e) (out_valid_js o)
  /\ out_files o = foldl write_saved ∅ (out_saved o)
  /\ (quiet a = false ->
      forall pe, pe ∈ out_errored o -> MsgSkipped pe.1 pe.2 ∈ stdout o).

(** ** An example run

    Four lines of input: a local file, a remote script that answers 404, a
    local file whose text begins with the marker of errors, and a second
    local file.  The oracle fails on the call of index 1.  The fetches and
    the calls complete out of order. *)

Definition demo_world : World :=
  {| http_get := fun _ => HttpResponse 404 [];
     path_exists := fun p =>
       bool_decide (p = lit "a.js") || bool_decide (p = lit "e.js")
       || bool_decide (p = lit "lib/b.js?v=2");
     read_file := fun p =>
       if bool_decide (p = lit "a.js")
       then ReadText (lit "const k = " ++ [dquote] ++ lit "token: abc12345" ++ [dquote])
       else if bool_decide (p = lit "e.js")
       then ReadText (lit "[ERROR] is how this file begins")
       else ReadText (lit "fetch('https://x.io/v1')") |}.

Definition demo_oracle (i : nat) (prompt : list ascii) : oracle_outcome :=
  if Nat.even i then Response (lit " nothing to report ")
  else OracleRaise (lit "quota exceeded").

Definition demo_env : Env :=
  {| input_exists := true;
     input_lines := [lit "a.js"; lit "  http://x/y.js "; lit ""; lit "e.js";
                     lit "lib/b.js?v=2"];
     world := fun _ => demo_world;
     fetch_order := [2; 0; 3; 1];
     beautify_js := fun code => code;
     oracle := demo_oracle;
     pool_trace := [Submit; Submit; Take 0; Take 1; Finish 1; Finish 0;
                    Yield 1; Yield 0];
     hash_order := gset_order |}.

Definition demo_args : Args :=
  {| input := lit "js_list.txt"; verbose := false; thread := 57; quiet := false |}.

(** The example run, quiet. *)
Definition quiet_args : Args :=
  {| input := lit "js_list.txt"; verbose := false; thread := 3; quiet := true |}.

(** Two paths that derive the same name; the oracle fails on the first. *)
Definition clash_env : Env :=
  {| input_exists := true;
     input_lines := [lit "a.js"; lit "lib/a.js"];
     world := fun _ =>
       {| http_get := fun _ => HttpResponse 404 [];
          path_exists := fun _ => true;
          read_file := fun p =>
            if bool_decide (p = lit "a.js") then ReadText (lit "one();")
            else ReadText (lit "two();") |};
     fetch_order := [0; 1];
     beautify_js := fun code => code;
     oracle := fun i _ =>
       if Nat.eqb i 0 then OracleRaise (lit "quota exceeded")
       else Response (lit "nothing to report");
     pool_trace := [Submit; Submit; Take 0; Finish 0; Take 0; Finish 0;
                    Yield 0; Yield 1];
     hash_order := gset_order |}.

(** ** Definitions for the further properties *)

(** The calls that have not started are the texts from some index on, in
    the order of the input. *)
Definition pool_fifo (texts : list (list ascii)) (s : pool) : Prop :=
  exists m, m <= length texts
            /\ (queue s).*1 ++ (pending s).*1 = seq m (length texts - m).

(** No more threads are spawned than calls were submitted. *)
Definition pool_spawned (texts : list (list ascii)) (s : pool) : Prop :=
  length (threads s) + length (pending s) <= length texts.

(** The lines printed are those of the results yielded, when verbose. *)
Definition pool_printed (verbose : bool) (s : pool) : Prop :=
  printed s
  = if verbose then (fun p => MsgFinished (p.1 + 1)) <$> results s else [].

(** The order in which [as_completed] yields the futures of a schedule. *)
Definition yield_order (tr : list action) : list nat :=
  omap (fun a => match a with Yield idx => Some idx | _ => None end) tr.

(** The file of a saved record and what is written to it. *)
Definition saved_path (sv : Saved) : list ascii :=
  lit "output/" ++ saved_name sv ++ lit ".md".

Definition saved_content (sv : Saved) : list ascii :=
  md_content (saved_explanation sv) (saved_extracted sv).

(** The lines about the errored items. *)
Definition skipped_lines (a : Args) (errored : list (list ascii * list ascii))
  : list message :=
  if quiet a then [] else (fun pe => MsgSkipped pe.1 pe.2) <$> errored.

(** [.js] occurs in [s] elsewhere than at its end. *)
Fixpoint inner_js (s : list ascii) : bool :=
  match s with
  | [] => false
  | _ :: t =>
      (PyStr.startswith (lit ".js") s && negb (Nat.eqb (length s) 3)) || inner_js t
  end.

(** The match of [url_re] at the head of [s], read off the text once: the
    URL and the rest of [s]. *)
Definition url_body (scheme s3 : list ascii) : option (list ascii * list ascii) :=
  if 1 <=? length (take_while url_char s3)
  then Some (scheme ++ take_while url_char s3, drop_while url_char s3)
  else None.

Definition url_at (s : list ascii) : option (list ascii * list ascii) :=
  match strip_lit false (lit "https://") s with
  | Some s3 => url_body (lit "https://") s3
  | None =>
      match strip_lit false (lit "http://") s with
      | Some s3 => url_body (lit "http://") s3
      | None => None
      end
  end.

(** A URL at the head of [s]: a scheme, then a run of one or more
    characters that are neither white space nor a quote, as long as the
    text has it there. *)
Definition url_here (s u rest : list ascii) : Prop :=
  exists scheme body,
    s = u ++ rest /\ u = scheme ++ body
    /\ (scheme = lit "http://" \/ scheme = lit "https://")
    /\ body <> [] /\ Forall (fun c => url_char c = true) body
    /\ match rest with [] => True | c :: _ => url_char c = false end.

(** A URL of the text [text]: it follows [pre] and is followed by [post]. *)
Definition url_in (text pre u post : list ascii) : Prop :=
  text = pre ++ u ++ post /\ url_here (u ++ post) u post.


(** * Properties *)

(** ** The name of an output *)

Section NameFacts.

Lemma match_at_Cls ic p c s :
  match_at ic (Cls p) (c :: s) = if p c then Some (None, s) else None.
Proof. reflexivity. Qed.

(** Substituting a class of characters rewrites the text character by
    character. *)
Lemma sub_Cls ic p r s :
  Re.sub ic (Cls p) [r] s = map (fun c => if p c then r else c) s.
Proof.
  unfold Re.sub. induction s as [|c s IH]; [reflexivity|].
  cbn [sub_go map]. rewrite match_at_Cls.
  destruct (p c); cbn [snd length].
  - replace (S (length s) - length s - 1) with 0 by lia.
    cbn. by rewrite IH.
  - by rewrite IH.
Qed.

Lemma one_of_spec cs c : one_of cs c = true <-> c ∈ cs.
Proof.
  unfold one_of. rewrite existsb_exists. split.
  - intros (x & Hx & Heq). apply Ascii.eqb_eq in Heq. subst.
    by apply list_elem_of_In.
  - intros Hin. exists c. split; [by apply list_elem_of_In|apply Ascii.eqb_refl].
Qed.

Lemma output_name_map path :
  output_name path =
  map (fun c => if one_of unsafe_chars c then "_"%char else c)
      (PyStr.replace (lit ".js") [] (output_base path)).
Proof. unfold output_name, unsafe_re. apply sub_Cls. Qed.

End NameFacts.

(** C7: for every source reference, the derived output name holds none of
    the characters backslash, slash, star, question mark, colon, double
    quote, angle brackets and bar. *)
Theorem output_name_safe (path : list ascii) :
  Forall (fun c => c ∉ unsafe_chars) (output_name path).
Proof.
  rewrite output_name_map. apply Forall_forall. intros c Hc.
  apply list_elem_of_fmap in Hc as (x & -> & _).
  destruct (one_of unsafe_chars x) eqn:Hx.
  - intros Hin. apply one_of_spec in Hin. vm_compute in Hin. discriminate.
  - intros Hin. apply one_of_spec in Hin. congruence.
Qed.

(** C8: the code removes every occurrence of [.js] from the final segment,
    not only the suffix; on [chart.js.min.js] the code yields [chart.min]
    where the name worded by the specification is [chart.js.min]. *)
Theorem output_name_inner_js :
  output_name (lit "lib/chart.js.min.js") = lit "chart.min"
  /\ spec_output_name (lit "lib/chart.js.min.js") = lit "chart.js.min".
Proof. split; vm_compute; reflexivity. Qed.

(** ** The Fetcher *)

Section GatherFacts.
Context {A : Type}.
Implicit Types (outcomes : list A) (slots : list (option A)) (order : list nat).

Lemma fill_slot_length outcomes slots i :
  length (fill_slot outcomes slots i) = length slots.
Proof. unfold fill_slot. destruct (outcomes !! i); [apply length_insert|done]. Qed.

Lemma fill_slot_lookup outcomes slots i j :
  length slots = length outcomes ->
  fill_slot outcomes slots i !! j =
  if decide (i = j) then Some <$> outcomes !! j else slots !! j.
Proof.
  intros Hlen. unfold fill_slot. destruct (decide (i = j)) as [->|Hne].
  - destruct (outcomes !! j) as [r|] eqn:Hj; simpl.
    + apply list_lookup_insert_eq. rewrite Hlen. by eapply lookup_lt_Some.
    + apply lookup_ge_None. rewrite Hlen. by apply lookup_ge_None.
  - destruct (outcomes !! i); [by apply list_lookup_insert_ne|done].
Qed.

(** After the completions of [order], slot [j] holds the outcome of task
    [j] when [j] has completed and is empty otherwise. *)
Lemma slots_lookup outcomes order slots j :
  length slots = length outcomes ->
  foldl (fill_slot outcomes) slots order !! j =
  if decide (j ∈ order) then Some <$> outcomes !! j else slots !! j.
Proof.
  revert slots. induction order as [|i order IH]; intros slots Hlen.
  - cbn. destruct (decide (j ∈ [])) as [Hin|]; [by apply elem_of_nil in Hin|done].
  - cbn [foldl]. rewrite IH by (by rewrite fill_slot_length).
    rewrite fill_slot_lookup by done.
    destruct (decide (i = j)) as [->|Hne].
    + rewrite (decide_True (P := j ∈ j :: order)) by apply list_elem_of_here.
      by destruct (decide (j ∈ order)).
    + destruct (decide (j ∈ order)) as [Hin|Hnin].
      * by rewrite decide_True by (by apply list_elem_of_further).
      * rewrite decide_False; [done|].
        intros [?|?]%elem_of_cons; congruence.
Qed.

Lemma slots_length outcomes order slots :
  length (foldl (fill_slot outcomes) slots order) = length slots.
Proof.
  revert slots. induction order as [|i order IH]; intros slots; [done|].
  cbn [foldl]. by rewrite IH, fill_slot_length.
Qed.

(** [gather] returns exactly when every task has completed, and then it
    returns the outcomes in the order of the tasks. *)
Lemma gather_Some outcomes order r :
  gather outcomes order = Some r <->
  r = outcomes /\ forall i, i < length outcomes -> i ∈ order.
Proof.
  unfold gather.
  pose proof (slots_length outcomes order (replicate (length outcomes) None)) as Hls.
  rewrite length_replicate in Hls.
  assert (Hlook : forall j,
            foldl (fill_slot outcomes) (replicate (length outcomes) None) order !! j =
            if decide (j ∈ order) then Some <$> outcomes !! j
            else replicate (length outcomes) None !! j).
  { intros j. apply slots_lookup. apply length_replicate. }
  revert Hls Hlook. generalize (foldl (fill_slot outcomes)
                                  (replicate (length outcomes) None) order).
  intros slots Hls Hlook. split.
  - intros Hm. apply mapM_Some in Hm.
    pose proof (Forall2_length _ _ _ Hm) as Hl.
    assert (Hr : forall i, i < length outcomes ->
               i ∈ order /\ r !! i = outcomes !! i).
    { intros i Hi.
      destruct (lookup_lt_is_Some_2 slots i) as [x Hx]; [lia|].
      destruct (lookup_lt_is_Some_2 r i) as [y Hy]; [lia|].
      pose proof (Forall2_lookup_lr _ _ _ _ _ _ Hm Hx Hy) as Hxy.
      cbn in Hxy. subst x. rewrite Hlook in Hx.
      destruct (decide (i ∈ order)) as [Hin|Hnin].
      - split; [done|]. rewrite Hy.
        destruct (outcomes !! i); cbn in Hx; congruence.
      - rewrite lookup_replicate_2 in Hx by done. discriminate. }
    split; [|intros i Hi; by apply Hr].
    apply list_eq_same_length with (length outcomes); [done|lia|].
    intros i x y Hi Hx Hy. destruct (Hr i Hi) as [_ Heq]. congruence.
  - intros [-> Hall].
    assert (slots = Some <$> outcomes) as ->.
    { apply list_eq. intros j. rewrite Hlook, list_lookup_fmap.
      destruct (decide (j ∈ order)); [done|].
      destruct (decide (j < length outcomes)) as [Hlt|Hge]; [by apply Hall in Hlt|].
      rewrite (proj1 (lookup_replicate_None _ _ _)) by lia.
      by rewrite (lookup_ge_None_2 outcomes j) by lia. }
    by apply mapM_fmap_Some.
Qed.
End GatherFacts.

Lemma gather_all_Some w order paths r :
  gather_all w order paths = Some r <->
  r = imap (fun i p => get_js_content (w i) p) paths
  /\ forall i, i < length paths -> i ∈ order.
Proof.
  unfold gather_all. rewrite gather_Some. by rewrite length_imap.
Qed.

Lemma get_js_content_path w path : (get_js_content w path).1 = path.
Proof.
  unfold get_js_content.
  repeat match goal with |- context [match ?x with _ => _ end] => destruct x end;
    reflexivity.
Qed.

(** C2: whatever the order in which the fetches complete, [gather_all]
    returns one result per path, as many as the paths and in their order:
    result [i] is the result of fetching path [i] and carries that path. *)
Theorem gather_all_in_order (w : nat -> World) (order : list nat)
  (paths : list (list ascii)) :
  order ≡ₚ seq 0 (length paths) ->
  exists results,
    gather_all w order paths = Some results
    /\ length results = length paths
    /\ forall i path, paths !! i = Some path ->
         results !! i = Some (get_js_content (w i) path)
         /\ (get_js_content (w i) path).1 = path.
Proof.
  intros Hperm. eexists. split; [|split].
  - apply gather_all_Some. split; [reflexivity|].
    intros i Hi. rewrite Hperm. apply elem_of_seq. lia.
  - apply length_imap.
  - intros i path Hp. split; [|apply get_js_content_path].
    by rewrite list_lookup_imap, Hp.
Qed.

(** ** The Extractor as a pair of sets *)

Lemma list_set_Permutation (o1 o2 : PySet) (found found' : list (list ascii)) :
  found ≡ₚ found' -> list_set o1 found ≡ₚ list_set o2 found'.
Proof.
  intros Hperm. apply NoDup_Permutation; try apply list_set_NoDup.
  intros x. rewrite !list_set_elem. by rewrite Hperm.
Qed.

(** C6: two runs of [extract_info] on one text, each with its own iteration
    order of sets, yield the same set of URLs and the same set of tokens;
    each list holds every found string once; and the sets do not depend on
    the order in which the matches were found. *)
Theorem extract_info_sets (o1 o2 : PySet) (code : list ascii) :
  urls (extract_info o1 code) ≡ₚ urls (extract_info o2 code)
  /\ tokens (extract_info o1 code) ≡ₚ tokens (extract_info o2 code)
  /\ NoDup (urls (extract_info o1 code))
  /\ NoDup (tokens (extract_info o1 code))
  /\ (forall x, x ∈ urls (extract_info o1 code) <-> x ∈ findall false url_re code)
  /\ (forall x, x ∈ tokens (extract_info o1 code) <-> x ∈ findall true token_re code)
  /\ (forall found_urls found_tokens,
        found_urls ≡ₚ findall false url_re code ->
        found_tokens ≡ₚ findall true token_re code ->
        list_set o2 found_urls ≡ₚ urls (extract_info o1 code)
        /\ list_set o2 found_tokens ≡ₚ tokens (extract_info o1 code)).
Proof.
  unfold extract_info; cbn [urls tokens].
  repeat split; try apply list_set_NoDup; try apply list_set_elem;
    try (by apply list_set_Permutation).
Qed.

(** ** The Extractor: the credential pattern *)

Section WhileFacts.
Variable p : ascii -> bool.

Lemma take_drop_while s : take_while p s ++ drop_while p s = s.
Proof. induction s as [|c s IH]; cbn; [done|]. destruct (p c); cbn; by rewrite ?IH. Qed.

Lemma take_while_Forall s : Forall (fun c => p c = true) (take_while p s).
Proof.
  induction s as [|c s IH]; cbn; [constructor|].
  destruct (p c) eqn:Hc; by constructor.
Qed.

Lemma drop_while_head s c s' : drop_while p s = c :: s' -> p c = false.
Proof.
  induction s as [|x s IH]; cbn; [done|].
  destruct (p x) eqn:Hx; [done|]. intros [= <- _]. done.
Qed.

Lemma drop_while_length s : length (drop_while p s) <= length s.
Proof. induction s as [|c s IH]; cbn; [done|]. destruct (p c); cbn; lia. Qed.

Lemma take_while_take s :
  take (length s - length (drop_while p s)) s = take_while p s.
Proof.
  induction s as [|c s IH]; cbn [take_while drop_while]; [done|].
  destruct (p c).
  - pose proof (drop_while_length s).
    replace (length (c :: s) - length (drop_while p s))
      with (S (length s - length (drop_while p s))) by (cbn; lia).
    cbn. by rewrite IH.
  - by rewrite Nat.sub_diag.
Qed.

(** A run of [p] followed by a text that [p] does not continue. *)
Lemma take_while_app xs ys :
  Forall (fun c => p c = true) xs ->
  match ys with [] => True | c :: _ => p c = false end ->
  take_while p (xs ++ ys) = xs /\ drop_while p (xs ++ ys) = ys.
Proof.
  intros Hxs Hys. induction Hxs as [|x xs Hx _ IH]; cbn.
  - destruct ys as [|c ys]; [done|]. cbn. by rewrite Hys.
  - rewrite Hx. destruct IH as [-> ->]. done.
Qed.
End WhileFacts.

Section RepFacts.
Context {R : Type}.
Variable p : ascii -> bool.

(** When the continuation always succeeds the repetition takes the whole
    run. *)
Lemma rep_cls_total (f : list ascii -> R) n s :
  rep_cls p n s (fun s' => Some (f s')) =
  if n <=? length (take_while p s) then Some (f (drop_while p s)) else None.
Proof.
  revert n. induction s as [|c s IH]; intros n; cbn.
  - by destruct n.
  - destruct (p c) eqn:Hc; cbn.
    + rewrite IH. destruct n as [|n]; cbn.
      * done.
      * destruct (n <=? length (take_while p s)); done.
    + by destruct n.
Qed.

(** When the continuation fails on every text that [p] continues, no
    shorter run is ever accepted. *)
Lemma rep_cls_no_backtrack (k : list ascii -> option R) n s :
  (forall c s', p c = true -> k (c :: s') = None) ->
  rep_cls p n s k =
  if n <=? length (take_while p s) then k (drop_while p s) else None.
Proof.
  intros Hk. revert n. induction s as [|c s IH]; intros n; cbn.
  - by destruct n.
  - destruct (p c) eqn:Hc; cbn.
    + rewrite IH. destruct n as [|n]; cbn.
      * destruct (k (drop_while p s)); [done|]. by apply Hk.
      * destruct (n <=? length (take_while p s)); [|done].
        by destruct (k (drop_while p s)).
    + by destruct n.
Qed.
End RepFacts.

Lemma re_match_Lit {R} ic w s cap (k : list ascii -> option (list ascii) -> option R) :
  re_match ic (Lit w) s cap k =
  match strip_lit ic w s with Some s' => k s' cap | None => None end.
Proof.
  revert s. induction w as [|c w IH]; intros s.
  - cbn. by destruct s.
  - destruct w as [|c' w].
    + cbn. destruct s as [|x s]; [done|]. by destruct (chr_match ic c x).
    + change (Lit (c :: c' :: w)) with (Cat (Chr c) (Lit (c' :: w))).
      cbn [re_match strip_lit]. destruct s as [|x s]; [done|].
      destruct (chr_match ic c x); [apply IH|done].
Qed.

Lemma strip_lit_head ic a w s s1 :
  strip_lit ic (a :: w) s = Some s1 ->
  exists x s', s = x :: s' /\ chr_match ic a x = true.
Proof.
  cbn. destruct s as [|x s']; [done|].
  destruct (chr_match ic a x) eqn:Hx; [|done]. intros _. by exists x, s'.
Qed.

Lemma strip_lit_other a b w' x s :
  chr_match true a x = true ->
  Ascii.eqb (PyStr.lower a) (PyStr.lower b) = false ->
  strip_lit true (b :: w') (x :: s) = None.
Proof.
  unfold chr_match. intros Ha%Ascii.eqb_eq Hab. cbn. unfold chr_match.
  by rewrite Ha, Hab.
Qed.

Lemma one_of_dash_not_k c :
  one_of ["_"; "-"]%char c = true -> chr_match true "k" c = false.
Proof.
  intros [->| ->%list_elem_of_singleton]%one_of_spec%elem_of_cons; reflexivity.
Qed.

(** The matcher on the keywords is the function [keyword_rest]. *)
Lemma re_match_keyword {R} s cap (k : list ascii -> option (list ascii) -> option R) :
  re_match true keyword_re s cap k =
  match keyword_rest s with Some s' => k s' cap | None => None end.
Proof.
  unfold keyword_re, keyword_rest. cbn [re_match]. rewrite !re_match_Lit.
  destruct (strip_lit true (lit "api") s) as [s1|] eqn:Hapi.
  - destruct (strip_lit_head _ _ _ _ _ Hapi) as (x & s' & -> & Hx).
    assert (strip_lit true (lit "token") (x :: s') = None) as ->
      by exact (strip_lit_other "a" "t" (lit "oken") x s' Hx eq_refl).
    assert (strip_lit true (lit "secret") (x :: s') = None) as ->
      by exact (strip_lit_other "a" "s" (lit "ecret") x s' Hx eq_refl).
    cbn [re_match]. rewrite !re_match_Lit.
    destruct s1 as [|c s1]; [done|].
    destruct (one_of ["_"; "-"]%char c) eqn:Hc.
    + rewrite re_match_Lit.
      assert (strip_lit true (lit "key") (c :: s1) = None) as ->.
      { change (strip_lit true (lit "key") (c :: s1))
          with (if chr_match true "k" c then strip_lit true (lit "ey") s1 else None).
        by rewrite (one_of_dash_not_k c Hc). }
      destruct (strip_lit true (lit "key") s1) as [r|]; [|done].
      by destruct (k r cap).
    + destruct (strip_lit true (lit "key") (c :: s1)) as [r|]; [|done].
      by destruct (k r cap).
  - destruct (strip_lit true (lit "token") s) as [r|] eqn:Htok; [|done].
    destruct (k r cap) eqn:Hk; [done|].
    destruct (strip_lit_head true "t" (lit "oken") s r Htok) as (x & s' & -> & Hx).
    assert (strip_lit true (lit "secret") (x :: s') = None) as ->
      by exact (strip_lit_other "t" "s" (lit "ecret") x s' Hx eq_refl).
    done.
Qed.

Lemma sep_not_value c :
  sep_char c = true -> quote_char c = false /\ value_char c = false.
Proof.
  destruct c as [[] [] [] [] [] [] [] []]; vm_compute; intros; (done || auto).
Qed.

Lemma quote_not_value c : quote_char c = true -> value_char c = false.
Proof.
  intros [->| ->%list_elem_of_singleton]%one_of_spec%elem_of_cons; reflexivity.
Qed.

(** The matcher on the credential pattern is the function [token_at]. *)
Lemma match_at_token s :
  match_at true token_re s = (fun vr => (Some vr.1, vr.2)) <$> token_at s.
Proof.
  unfold match_at, token_re, token_at. cbn [re_match].
  rewrite re_match_keyword.
  destruct (keyword_rest s) as [s1|]; [|done].
  rewrite rep_cls_no_backtrack.
  2:{ intros c s' Hc. destruct (sep_not_value c Hc) as [Hq Hv].
      rewrite Hq. rewrite rep_cls_total. cbn. by rewrite Hv. }
  destruct (1 <=? length (take_while sep_char s1)); [|done].
  generalize (drop_while sep_char s1). intros s2.
  destruct s2 as [|c s2]; [done|]. cbn [skip_quote].
  destruct (quote_char c) eqn:Hq.
  - rewrite !rep_cls_total. rewrite take_while_take.
    destruct (8 <=? length (take_while value_char s2)); [done|].
    cbn. by rewrite (quote_not_value c Hq).
  - rewrite rep_cls_total, take_while_take.
    by destruct (8 <=? length (take_while value_char (c :: s2))).
Qed.

(** *** The function [token_at] and the words of the specification *)

Lemma strip_lit_sound w s s1 :
  strip_lit true w s = Some s1 ->
  exists u, s = u ++ s1 /\ PyStr.lower <$> u = PyStr.lower <$> w.
Proof.
  revert s. induction w as [|c w IH]; intros s; cbn.
  - intros [= ->]. by exists [].
  - destruct s as [|x s]; [done|]. unfold chr_match.
    destruct (Ascii.eqb _ _) eqn:Hx; [|done]. apply Ascii.eqb_eq in Hx.
    intros (u & -> & Hu)%IH. exists (x :: u). cbn. by rewrite Hx, Hu.
Qed.

Lemma strip_lit_complete w u s1 :
  PyStr.lower <$> u = PyStr.lower <$> w -> strip_lit true w (u ++ s1) = Some s1.
Proof.
  revert u. induction w as [|c w IH]; intros [|x u]; cbn; try done.
  intros [= Hx Hu]. unfold chr_match. rewrite Hx, Ascii.eqb_refl. by apply IH.
Qed.

Lemma lower_underscore c : PyStr.lower c = "_"%char -> c = "_"%char.
Proof. destruct c as [[] [] [] [] [] [] [] []]; vm_compute; congruence. Qed.

Lemma lower_dash c : PyStr.lower c = "-"%char -> c = "-"%char.
Proof. destruct c as [[] [] [] [] [] [] [] []]; vm_compute; congruence. Qed.

Lemma one_of_dash_lower c :
  one_of ["_"; "-"]%char c = true -> PyStr.lower c = c.
Proof.
  intros [->| ->%list_elem_of_singleton]%one_of_spec%elem_of_cons; reflexivity.
Qed.

Lemma keywords_elem w :
  w ∈ keywords <->
  w = lit "api_key" \/ w = lit "api-key" \/ w = lit "apikey" \/ w = lit "token"
  \/ w = lit "secret".
Proof.
  unfold keywords. rewrite !elem_of_cons, elem_of_nil. tauto.
Qed.

Lemma keyword_rest_sound s s1 :
  keyword_rest s = Some s1 -> exists w, s = w ++ s1 /\ is_keyword w.
Proof.
  unfold keyword_rest, is_keyword.
  destruct (strip_lit true (lit "api") s) as [r|] eqn:Hapi.
  - apply strip_lit_sound in Hapi as (u & -> & Hu).
    destruct r as [|c r]; [done|].
    destruct (one_of ["_"; "-"]%char c) eqn:Hc.
    + intros (u2 & -> & Hu2)%strip_lit_sound.
      exists (u ++ c :: u2). rewrite <- app_assoc. split; [done|].
      rewrite fmap_app, fmap_cons, Hu, Hu2, (one_of_dash_lower c Hc).
      apply keywords_elem.
      apply one_of_spec, elem_of_cons in Hc as [->| ->%list_elem_of_singleton].
      * left. vm_compute. reflexivity.
      * right. left. vm_compute. reflexivity.
    + intros (u2 & Heq & Hu2)%strip_lit_sound. rewrite Heq.
      exists (u ++ u2). rewrite <- app_assoc. split; [done|].
      rewrite fmap_app, Hu, Hu2. apply keywords_elem.
      right. right. left. vm_compute. reflexivity.
  - destruct (strip_lit true (lit "token") s) as [r|] eqn:Htok.
    + intros [= <-]. apply strip_lit_sound in Htok as (u & -> & Hu).
      exists u. split; [done|]. rewrite Hu. apply keywords_elem.
      right. right. right. left. vm_compute. reflexivity.
    + intros (u & -> & Hu)%strip_lit_sound.
      exists u. split; [done|]. rewrite Hu. apply keywords_elem.
      right. right. right. right. vm_compute. reflexivity.
Qed.

Lemma strip_lit_mismatch a w x s :
  Ascii.eqb (PyStr.lower x) (PyStr.lower a) = false ->
  strip_lit true (a :: w) (x :: s) = None.
Proof. intros Hx. cbn. unfold chr_match. by rewrite Hx. Qed.

Lemma keyword_rest_complete w s1 :
  is_keyword w -> keyword_rest (w ++ s1) = Some s1.
Proof.
  unfold is_keyword. rewrite keywords_elem. unfold keyword_rest.
  intros [Hw|[Hw|[Hw|[Hw|Hw]]]].
  - change (lit "api_key") with (lit "api" ++ "_"%char :: lit "key") in Hw.
    apply fmap_app_inv in Hw as (u & r & Hu & Hr & ->). symmetry in Hr.
    apply fmap_cons_inv in Hr as (c & u2 & Hc & Hu2 & ->).
    symmetry in Hc. apply lower_underscore in Hc as ->.
    rewrite <- app_assoc, (strip_lit_complete (lit "api") u) by done.
    cbn [app one_of existsb]. cbn [Ascii.eqb Bool.eqb orb].
    by apply strip_lit_complete.
  - change (lit "api-key") with (lit "api" ++ "-"%char :: lit "key") in Hw.
    apply fmap_app_inv in Hw as (u & r & Hu & Hr & ->). symmetry in Hr.
    apply fmap_cons_inv in Hr as (c & u2 & Hc & Hu2 & ->).
    symmetry in Hc. apply lower_dash in Hc as ->.
    rewrite <- app_assoc, (strip_lit_complete (lit "api") u) by done.
    cbn [app one_of existsb]. cbn [Ascii.eqb Bool.eqb orb].
    by apply strip_lit_complete.
  - change (lit "apikey") with (lit "api" ++ "k"%char :: lit "ey") in Hw.
    apply fmap_app_inv in Hw as (u & r & Hu & Hr & ->). symmetry in Hr.
    apply fmap_cons_inv in Hr as (c & u2 & Hc & Hu2 & ->).
    rewrite <- app_assoc, (strip_lit_complete (lit "api") u) by done.
    cbn [app].
    assert (one_of ["_"; "-"]%char c = false) as ->.
    { destruct (one_of ["_"; "-"]%char c) eqn:Hd; [|done].
      rewrite (one_of_dash_lower c Hd) in Hc. subst c. done. }
    apply (strip_lit_complete (lit "key") (c :: u2)).
    rewrite fmap_cons, <- Hc, <- Hu2. vm_compute. reflexivity.
  - change (lit "token") with ("t"%char :: lit "oken") in Hw.
    apply fmap_cons_inv in Hw as (x & w' & Hx & Hw' & ->).
    rewrite <- app_comm_cons.
    assert (strip_lit true (lit "api") (x :: w' ++ s1) = None) as ->
      by (apply (strip_lit_mismatch "a" (lit "pi")); by rewrite <- Hx).
    assert (strip_lit true (lit "token") (x :: w' ++ s1) = Some s1) as ->; [|done].
    apply (strip_lit_complete (lit "token") (x :: w')).
    rewrite fmap_cons, <- Hx, <- Hw'. vm_compute. reflexivity.
  - change (lit "secret") with ("s"%char :: lit "ecret") in Hw.
    apply fmap_cons_inv in Hw as (x & w' & Hx & Hw' & ->).
    rewrite <- app_comm_cons.
    assert (strip_lit true (lit "api") (x :: w' ++ s1) = None) as ->
      by (apply (strip_lit_mismatch "a" (lit "pi")); by rewrite <- Hx).
    assert (strip_lit true (lit "token") (x :: w' ++ s1) = None) as ->
      by (apply (strip_lit_mismatch "t" (lit "oken")); by rewrite <- Hx).
    apply (strip_lit_complete (lit "secret") (x :: w')).
    rewrite fmap_cons, <- Hx, <- Hw'. vm_compute. reflexivity.
Qed.

Lemma token_at_sound s v rest : token_at s = Some (v, rest) -> cred_here s v rest.
Proof.
  unfold token_at.
  destruct (keyword_rest s) as [s1|] eqn:Hk; [|done].
  apply keyword_rest_sound in Hk as (w & -> & Hw).
  destruct (1 <=? length (take_while sep_char s1)) eqn:Hsep; [|done].
  apply Nat.leb_le in Hsep.
  destruct (8 <=? _) eqn:Hlen; [|done]. apply Nat.leb_le in Hlen.
  intros [= <- <-].
  set (s2 := drop_while sep_char s1) in *.
  exists w, (take_while sep_char s1),
    (take (length s2 - length (skip_quote s2)) s2).
  assert (Hq : is_quote (take (length s2 - length (skip_quote s2)) s2)
               /\ take (length s2 - length (skip_quote s2)) s2 ++ skip_quote s2 = s2).
  { destruct s2 as [|c s2']; [by split; [left|]|]. cbn [skip_quote].
    destruct (quote_char c) eqn:Hc.
    - replace (length (c :: s2') - length s2') with 1 by (cbn; lia). cbn.
      split; [right; by exists c|done].
    - rewrite Nat.sub_diag. cbn. by split; [left|]. }
  destruct Hq as [Hq Hs2].
  repeat split; try done.
  - rewrite (take_drop_while value_char), Hs2. subst s2.
    by rewrite take_drop_while.
  - intros Hnil. rewrite Hnil in Hsep. cbn in Hsep. lia.
  - apply take_while_Forall.
  - apply take_while_Forall.
  - destruct (drop_while value_char (skip_quote s2)) as [|c r] eqn:Hd; [done|].
    cbn. by eapply drop_while_head.
Qed.

Lemma value_head_not_sep v :
  8 <= length v -> Forall (fun c => value_char c = true) v ->
  exists c v', v = c :: v' /\ sep_char c = false /\ quote_char c = false.
Proof.
  intros Hlen Hv. destruct v as [|c v']; [cbn in Hlen; lia|].
  exists c, v'. split; [done|]. apply Forall_cons in Hv as [Hc _].
  destruct (sep_char c) eqn:Hs.
  { apply sep_not_value in Hs as [_ ?]. congruence. }
  split; [done|]. destruct (quote_char c) eqn:Hq; [|done].
  apply quote_not_value in Hq. congruence.
Qed.

Lemma token_at_complete s v rest : cred_here s v rest -> token_at s = Some (v, rest).
Proof.
  intros (w & seps & q & -> & Hw & Hne & Hseps & Hq & Hlen & Hv & Hend).
  unfold token_at. rewrite (keyword_rest_complete w _ Hw).
  destruct (value_head_not_sep v Hlen Hv) as (c & v' & Hvc & Hcs & Hcq).
  assert (Hafter : match q ++ v ++ rest with
                   | [] => True | x :: _ => sep_char x = false end).
  { destruct Hq as [->|(x & -> & Hx)]; cbn [app].
    - by rewrite Hvc.
    - destruct (sep_char x) eqn:Hs; [|done].
      apply sep_not_value in Hs as [? _]. congruence. }
  destruct (take_while_app sep_char seps (q ++ v ++ rest) Hseps Hafter) as [-> ->].
  assert ((1 <=? length seps) = true) as ->.
  { apply Nat.leb_le. destruct seps; [done|cbn; lia]. }
  assert (skip_quote (q ++ v ++ rest) = v ++ rest) as ->.
  { destruct Hq as [->|(x & -> & Hx)]; cbn [app skip_quote].
    - rewrite Hvc. cbn [app skip_quote]. by rewrite Hcq.
    - by rewrite Hx. }
  destruct (take_while_app value_char v rest Hv Hend) as [-> ->].
  by rewrite (proj2 (Nat.leb_le 8 (length v)) Hlen).
Qed.

(** *** The scan of [re.findall] *)

Lemma item_token s m : item token_re s m = default [] m.1.
Proof. reflexivity. Qed.

Lemma token_at_length s v rest : token_at s = Some (v, rest) -> length rest < length s.
Proof.
  intros (w & seps & q & -> & _ & _ & _ & _ & Hlen & _)%token_at_sound.
  rewrite !length_app. lia.
Qed.

(** Every reported value is the value of a credential found in the text. *)
Lemma findall_token_sound s skip v :
  v ∈ findall_go true token_re skip s ->
  exists pre s0 rest, s = pre ++ s0 /\ token_at s0 = Some (v, rest).
Proof.
  revert skip. induction s as [|c s IH]; intros skip; cbn [findall_go].
  - by intros ?%elem_of_nil.
  - destruct skip as [|k].
    + rewrite match_at_token.
      destruct (token_at (c :: s)) as [[v' rest']|] eqn:Hm; cbn.
      * intros [->|Hin]%elem_of_cons.
        -- by exists [], (c :: s), rest'.
        -- destruct (IH _ Hin) as (pre & s0 & rest & -> & Hs0).
           by exists (c :: pre), s0, rest.
      * intros Hin. destruct (IH _ Hin) as (pre & s0 & rest & -> & Hs0).
        by exists (c :: pre), s0, rest.
    + intros Hin. destruct (IH _ Hin) as (pre & s0 & rest & -> & Hs0).
      by exists (c :: pre), s0, rest.
Qed.

(** A credential is reported when the scan reaches its start, which it does
    when no match that starts earlier runs past that start. *)
Lemma findall_token_complete s :
  forall skip pre s0 v rest,
    s = pre ++ s0 -> token_at s0 = Some (v, rest) -> skip <= length pre ->
    (forall pre' s' v' rest',
        s = pre' ++ s' -> token_at s' = Some (v', rest') ->
        skip <= length pre' -> length pre' < length pre ->
        length pre' + (length s' - length rest') <= length pre) ->
    v ∈ findall_go true token_re skip s.
Proof.
  induction s as [|c s IH]; intros skip pre s0 v rest Hs Htok Hskip Hfree.
  - symmetry in Hs. apply app_eq_nil in Hs as [-> ->]. done.
  - cbn [findall_go]. destruct skip as [|k].
    + rewrite match_at_token. destruct pre as [|p pre].
      * cbn in Hs. subst s0. rewrite Htok. cbn. apply list_elem_of_here.
      * cbn in Hs. injection Hs as <- Hs.
        destruct (token_at (c :: s)) as [[v' rest']|] eqn:Hm; cbn [fmap option_fmap option_map].
        -- apply list_elem_of_further. cbn [snd fst].
           apply (IH _ pre s0 v rest Hs Htok).
           ++ pose proof (Hfree [] (c :: s) v' rest' eq_refl Hm) as Hb.
              cbn in Hb. cbn. lia.
           ++ intros pre' s' v'' rest'' Hs' Htok' _ Hlt.
              pose proof (Hfree (c :: pre') s' v'' rest'') as Hb. cbn in Hb.
              rewrite Hs' in Hb. specialize (Hb eq_refl Htok'). cbn. lia.
        -- apply (IH 0 pre s0 v rest Hs Htok); [lia|].
           intros pre' s' v'' rest'' Hs' Htok' _ Hlt.
           pose proof (Hfree (c :: pre') s' v'' rest'') as Hb. cbn in Hb.
           rewrite Hs' in Hb. specialize (Hb eq_refl Htok'). cbn. lia.
    + destruct pre as [|p pre]; [cbn in Hskip; lia|].
      cbn in Hs. injection Hs as <- Hs.
      apply (IH k pre s0 v rest Hs Htok); [cbn in Hskip; lia|].
      intros pre' s' v'' rest'' Hs' Htok' Hk Hlt.
      pose proof (Hfree (c :: pre') s' v'' rest'') as Hb. cbn in Hb.
      rewrite Hs' in Hb. specialize (Hb eq_refl Htok'). cbn. lia.
Qed.

Lemma cred_at_here text pre v post :
  cred_at text pre v post /\ run_ends post <->
  exists s, text = pre ++ s /\ cred_here s v post.
Proof.
  unfold cred_at, cred_here. split.
  - intros [(w & seps & q & -> & H) Hend]. eexists. split; [done|].
    exists w, seps, q. split; [done|]. tauto.
  - intros (s & -> & w & seps & q & -> & H). split; [|tauto].
    exists w, seps, q. split; [done|]. tauto.
Qed.

(** A sufficient condition: the value of a credential of the text is in the
    set when no credential that starts earlier in the text reaches beyond
    its start; and every member of the set is the value of a credential. *)
Lemma tokens_free_standing (o : PySet) (text : list ascii) :
  (forall v, v ∈ tokens (extract_info o text) ->
             exists pre post, cred_at text pre v post /\ run_ends post)
  /\ (forall pre v post,
         cred_at text pre v post -> run_ends post ->
         (forall pre' v' post',
             cred_at text pre' v' post' -> length pre' < length pre ->
             length text - length post' <= length pre) ->
         v ∈ tokens (extract_info o text)).
Proof.
  unfold extract_info; cbn [tokens]. split.
  - intros v Hv. apply list_set_elem in Hv.
    apply findall_token_sound in Hv as (pre & s0 & rest & -> & Htok).
    exists pre, rest. apply cred_at_here. exists s0. split; [done|].
    by apply token_at_sound.
  - intros pre v post Hcred Hend Hfree. apply list_set_elem.
    destruct (proj1 (cred_at_here text pre v post) (conj Hcred Hend))
      as (s0 & -> & Hhere).
    apply (findall_token_complete _ 0 pre s0 v post eq_refl);
      [by apply token_at_complete|lia|].
    intros pre' s' v' rest' Hs' Htok' _ Hlt.
    pose proof (token_at_length _ _ _ Htok') as Hlen.
    assert (cred_at (pre ++ s0) pre' v' rest') as Hc.
    { apply (proj2 (cred_at_here (pre ++ s0) pre' v' rest')).
      exists s'. split; [done|]. by apply token_at_sound. }
    specialize (Hfree pre' v' rest' Hc Hlt).
    rewrite Hs', length_app in Hfree. lia.
Qed.

Lemma cred_at_token_at text q v post :
  cred_at text (take q text) v post /\ run_ends post <->
  token_at (drop q text) = Some (v, post).
Proof.
  rewrite cred_at_here. split.
  - intros (s & Hs & Hhere). apply token_at_complete.
    rewrite <- (take_drop q text) in Hs at 1. by apply app_inv_head in Hs as <-.
  - intros Htok%token_at_sound. exists (drop q text).
    split; [by rewrite take_drop|done].
Qed.

Lemma cred_at_prefix text pre v post :
  cred_at text pre v post -> take (length pre) text = pre.
Proof. intros (w & seps & q & -> & _). by rewrite take_app_length. Qed.

Lemma scan_le text q p : scan text q p -> q <= p.
Proof.
  induction 1 as [q|q p Hq Hno Hs IH|q p v post Hc He Hs IH]; [done|lia|].
  destruct (decide (q <= length text)) as [Hle|Hgt].
  - pose proof (proj1 (cred_at_token_at text q v post) (conj Hc He)) as Htok.
    apply token_at_length in Htok. rewrite length_drop in Htok. lia.
  - pose proof (proj1 (cred_at_token_at text q v post) (conj Hc He)) as Htok.
    rewrite drop_ge in Htok by lia. done.
Qed.

(** The scan of [re.findall] on the pattern of credentials, position by
    position. *)
Lemma findall_token_scan text v :
  forall s pre skip,
    text = pre ++ s -> skip <= length s ->
    v ∈ findall_go true token_re skip s <->
    exists p rest, scan text (length pre + skip) p
                   /\ token_at (drop p text) = Some (v, rest).
Proof.
  induction s as [|c s IH]; intros pre skip Htext Hskip.
  - cbn [findall_go]. split; [by intros ?%elem_of_nil|].
    intros (p & rest & Hs%scan_le & Htok). exfalso.
    rewrite app_nil_r in Htext. subst pre. rewrite drop_ge in Htok by lia. done.
  - assert (Hnext : text = (pre ++ [c]) ++ s) by (by rewrite <- app_assoc).
    assert (Hdrop : drop (length pre) text = c :: s).
    { by rewrite Htext, drop_app_length. }
    assert (Hlen : length text = length pre + S (length s)).
    { rewrite Htext, length_app. done. }
    cbn [findall_go]. destruct skip as [|k].
    + rewrite Nat.add_0_r. rewrite match_at_token.
      destruct (token_at (c :: s)) as [[v' rest']|] eqn:Hm;
        cbn [fmap option_fmap option_map fst snd].
      * change (item token_re (c :: s) (Some v', rest')) with v'.
        pose proof (token_at_length _ _ _ Hm) as Hl. cbn [length] in Hl.
        assert (Hpos : length (pre ++ [c]) + (length (c :: s) - length rest' - 1)
                       = length text - length rest').
        { rewrite length_app. cbn [length]. lia. }
        rewrite elem_of_cons, (IH (pre ++ [c]) _ Hnext) by (cbn [length]; lia).
        rewrite Hpos. split.
        -- intros [->|(p & rest & Hs & Htok)].
           ++ exists (length pre), rest'. split; [constructor|by rewrite Hdrop].
           ++ exists p, rest. split; [|done].
              rewrite <- Hdrop in Hm. apply cred_at_token_at in Hm as [Hc He].
              by apply (scan_match _ _ _ v' rest').
        -- intros (p & rest & Hs & Htok). inversion Hs as [q|q p' Hq Hno Hs'|q p' v'' post'' Hc He Hs']; subst.
           ++ left. rewrite Hdrop in Htok. congruence.
           ++ exfalso. apply (Hno v' rest'). apply cred_at_token_at. by rewrite Hdrop.
           ++ pose proof (proj1 (cred_at_token_at _ _ _ _) (conj Hc He)) as Htok'.
              rewrite Hdrop in Htok'. simplify_eq. right. by exists p, rest.
      * rewrite (IH (pre ++ [c]) 0 Hnext) by lia.
        assert (Hpos : length (pre ++ [c]) + 0 = S (length pre)).
        { rewrite length_app. cbn. lia. }
        rewrite Hpos. split.
        -- intros (p & rest & Hs & Htok). exists p, rest. split; [|done].
           apply scan_skip; [lia| |done].
           intros v' post' Hc%cred_at_token_at. rewrite Hdrop in Hc. congruence.
        -- intros (p & rest & Hs & Htok). inversion Hs as [q|q p' Hq Hno Hs'|q p' v'' post'' Hc He Hs']; subst.
           ++ rewrite Hdrop in Htok. congruence.
           ++ by exists p, rest.
           ++ pose proof (proj1 (cred_at_token_at _ _ _ _) (conj Hc He)) as Htok'.
              rewrite Hdrop in Htok'. congruence.
    + cbn [length] in Hskip. rewrite (IH (pre ++ [c]) k Hnext) by lia.
      assert (Hpos : length (pre ++ [c]) + k = length pre + S k).
      { rewrite length_app. cbn. lia. }
      by rewrite Hpos.
Qed.

(** C9, as amended: the set of credential candidates holds exactly the
    values of the credentials the scan of the text stands on.  A credential
    is a keyword in any case, one or more separators, an optional quote and
    a run of eight or more word characters or hyphens, as long as the text
    has it there.  The scan starts at the start of the text; standing on a
    position where a credential starts it goes on right after the run of
    that credential, and from any other position it goes on one character
    further. *)
Theorem tokens_characterized (o : PySet) (text v : list ascii) :
  v ∈ tokens (extract_info o text) <->
  exists pre post,
    scan text 0 (length pre) /\ cred_at text pre v post /\ run_ends post.
Proof.
  unfold extract_info; cbn [tokens]. rewrite list_set_elem. unfold findall.
  rewrite (findall_token_scan text v text [] 0 eq_refl) by lia. cbn [length plus].
  split.
  - intros (p & rest & Hs & Htok).
    assert (Hp : p < length text).
    { destruct (decide (p < length text)); [done|].
      rewrite drop_ge in Htok by lia. done. }
    apply cred_at_token_at in Htok as [Hc He].
    exists (take p text), rest. rewrite length_take_le by lia. done.
  - intros (pre & post & Hs & Hc & He). exists (length pre), post.
    split; [done|]. apply cred_at_token_at.
    by rewrite (cred_at_prefix _ _ _ _ Hc).
Qed.

(** C9 as stated fails: [token=abcdefgh] is a credential of the text below,
    with the value [abcdefgh], and the set holds only [api_token], the value
    of the credential that starts at [secret] and covers the keyword. *)
Lemma tokens_overlap :
  cred_at (lit "secret: api_token=abcdefgh") (lit "secret: api_") (lit "abcdefgh") []
  /\ run_ends []
  /\ tokens (extract_info gset_order (lit "secret: api_token=abcdefgh"))
     = [lit "api_token"].
Proof.
  split; [|split; [done|vm_compute; reflexivity]].
  exists (lit "token"), (lit "="), [].
  split; [reflexivity|]. split; [apply keywords_elem; tauto|].
  split; [done|]. split; [by repeat constructor|].
  split; [by left|]. split; [cbn; lia|]. by repeat constructor.
Qed.

(** The scenario of the specification. *)
Example tokens_scenario :
  tokens (extract_info gset_order
            (lit "const k = " ++ [dquote] ++ lit "token: abc12345" ++ [dquote]))
  = [lit "abc12345"].
Proof. vm_compute. reflexivity. Qed.

(** Three credentials, each starting inside the run of the one before: the
    scan reports the first, steps over the second, which starts inside the
    match of the first, and reports the third. *)
Example tokens_chain :
  findall true token_re (lit "secret=aaaa_token=bbbb_apikey=cccccccc")
  = [lit "aaaa_token"; lit "cccccccc"].
Proof. vm_compute. reflexivity. Qed.

(** ** The Analyzer *)

Lemma enumerate_keys {A} (l : list A) : (enumerate l).*1 = seq 0 (length l).
Proof.
  unfold enumerate. rewrite fmap_imap.
  rewrite (imap_ext _ (fun i _ => i)) by done.
  rewrite (imap_seq_0 l (fun i => i)). apply list_fmap_id.
Qed.

Lemma enumerate_lookup {A} (l : list A) i x :
  (i, x) ∈ enumerate l <-> l !! i = Some x.
Proof.
  unfold enumerate. rewrite list_elem_of_lookup. split.
  - intros [j Hj]. rewrite list_lookup_imap in Hj.
    destruct (l !! j) eqn:E; cbn in Hj; [|done]. by simplify_eq.
  - intros Hi. exists i. by rewrite list_lookup_imap, Hi.
Qed.

Section OmapFacts.
Context {A : Type}.
Implicit Types (l : list (option A)).

Lemma omap_id_insert_Some l t x :
  l !! t = Some None -> omap id (<[t := Some x]> l) ≡ₚ x :: omap id l.
Proof.
  intros Ht. rewrite <- (take_drop_middle l t None) at 2 by done.
  rewrite insert_take_drop by (by eapply lookup_lt_Some).
  rewrite !omap_app. cbn. by rewrite Permutation_middle.
Qed.

Lemma omap_id_insert_None l t x :
  l !! t = Some (Some x) -> x :: omap id (<[t := None]> l) ≡ₚ omap id l.
Proof.
  intros Ht. rewrite <- (take_drop_middle l t (Some x)) at 2 by done.
  rewrite insert_take_drop by (by eapply lookup_lt_Some).
  rewrite !omap_app. cbn. by rewrite Permutation_middle.
Qed.

Lemma omap_id_length l : length (omap id l) <= length l.
Proof. induction l as [|[x|] l IH]; cbn; lia. Qed.

Lemma omap_id_nonempty l :
  omap id l <> [] -> exists t x, l !! t = Some (Some x).
Proof.
  induction l as [|[x|] l IH]; cbn; intros Hne; [done| |].
  - by exists 0, x.
  - destruct (IH Hne) as (t & x & Ht). by exists (S t), x.
Qed.

Lemma omap_id_all_idle l :
  omap id l = [] -> l <> [] -> l !! 0 = Some None.
Proof. destruct l as [|[x|] l]; cbn; intros; congruence. Qed.
End OmapFacts.

Section PoolFacts.
Variable oracle : nat -> list ascii -> oracle_outcome.
Variable max_workers : Z.
Variable verbose : bool.
Variable texts : list (list ascii).

Local Abbreviation inv := (pool_inv oracle max_workers texts).
Local Abbreviation step := (pool_step oracle max_workers verbose).
Local Abbreviation prun := (pool_run oracle max_workers verbose).

Lemma pool_inv_init : inv (pool_init texts).
Proof.
  split; cbn.
  - unfold pool_keys, in_flight; cbn. rewrite map_to_list_empty. cbn.
    rewrite !app_nil_r. apply reflexive_eq, enumerate_keys.
  - intros i c. unfold in_flight; cbn. rewrite !app_nil_r. apply enumerate_lookup.
  - intros i f Hf. by rewrite lookup_empty in Hf.
  - intros i r Hr. by apply elem_of_nil in Hr.
  - lia.
  - done.
Qed.

Lemma in_flight_snoc_idle (ths : list (option (nat * list ascii))) :
  omap id (ths ++ [None]) = omap id ths.
Proof. rewrite omap_app. cbn. apply app_nil_r. Qed.

Lemma pool_inv_submit s s' :
  inv s -> step Submit s = Some s' -> inv s' /\ pool_measure s' < pool_measure s.
Proof.
  intros [Hk Hi Hf Hr Ht Ha] Hstep. cbn in Hstep.
  unfold pool_keys, in_flight in *.
  destruct (pending s) as [|item rest] eqn:Hp; [done|]. rewrite ?Hp in *.
  assert (Hth : exists ths idle,
             s' = {| pending := rest; queue := queue s ++ [item]; threads := ths;
                     idle_sem := idle; finished := finished s;
                     results := results s; printed := printed s |}
             /\ omap id ths = in_flight s
             /\ (Z.of_nat (length ths) <= Z.max 0 max_workers)%Z
             /\ ((1 <= max_workers)%Z -> ths <> [])).
  { destruct (idle_sem s) as [|n] eqn:Hidle.
    - destruct (Z.of_nat (length (threads s)) <? max_workers)%Z eqn:Hlt;
        simplify_eq; do 2 eexists; (split; [reflexivity|]).
      + rewrite in_flight_snoc_idle, length_app. cbn.
        apply Z.ltb_lt in Hlt. repeat split; [lia|]. by destruct (threads s).
      + apply Z.ltb_ge in Hlt. repeat split; [done|].
        intros HK Hnil. rewrite Hnil in Hlt. cbn in Hlt. lia.
    - simplify_eq. do 2 eexists. split; [reflexivity|]. repeat split; [done|].
      intros HK Hnil. destruct (Ha HK Hnil). lia. }
  destruct Hth as (ths & idle & -> & Hfl & Hlen & Hne).
  split; [|unfold pool_measure, in_flight in *; cbn; rewrite Hp, Hfl, length_app; cbn; lia].
  split; cbn.
  - unfold pool_keys, in_flight in *; cbn. rewrite Hfl, <- Hk, fmap_app. cbn.
    solve_Permutation.
  - intros i c Hin. apply Hi. unfold in_flight in *; cbn in Hin.
    rewrite Hfl in Hin. revert Hin.
    rewrite !elem_of_app, ?elem_of_cons, ?elem_of_nil. tauto.
  - done.
  - done.
  - done.
  - intros HK Hnil. by destruct (Hne HK).
Qed.

Lemma pool_inv_take t s s' :
  inv s -> step (Take t) s = Some s' -> inv s' /\ pool_measure s' < pool_measure s.
Proof.
  intros [Hk Hi Hf Hr Ht Ha] Hstep. cbn in Hstep.
  unfold pool_keys, in_flight in *.
  destruct (threads s !! t) as [[w|]|] eqn:Hth; try done.
  destruct (queue s) as [|item rest] eqn:Hq; [done|]. rewrite ?Hq in *. simplify_eq.
  pose proof (omap_id_insert_Some _ _ item Hth) as Hfl.
  split; [|unfold pool_measure, in_flight; cbn; rewrite Hq, Hfl; cbn; lia].
  split; cbn.
  - unfold pool_keys, in_flight in *; cbn. rewrite Hfl, <- Hk. cbn.
    solve_Permutation.
  - intros i c Hin. apply Hi. unfold in_flight in *; cbn in Hin.
    rewrite Hfl in Hin. revert Hin.
    rewrite !elem_of_app, ?elem_of_cons, ?elem_of_nil. tauto.
  - done.
  - done.
  - by rewrite length_insert.
  - intros HK Hnil. apply (f_equal length) in Hnil.
    rewrite length_insert in Hnil. apply lookup_lt_Some in Hth. cbn in Hnil. lia.
Qed.

Lemma pool_keys_NoDup s : inv s -> NoDup (pool_keys s).
Proof. intros [Hk _ _ _ _ _]. rewrite Hk. apply NoDup_seq. Qed.

Lemma pool_inv_finish t s s' :
  inv s -> step (Finish t) s = Some s' -> inv s' /\ pool_measure s' < pool_measure s.
Proof.
  intros Hinv Hstep. pose proof (pool_keys_NoDup s Hinv) as Hnd.
  destruct Hinv as [Hk Hi Hf Hr Ht Ha]. cbn in Hstep.
  unfold pool_keys, in_flight in *.
  destruct (threads s !! t) as [[[idx code]|]|] eqn:Hth; try done. simplify_eq.
  pose proof (omap_id_insert_None _ _ _ Hth) as Hfl.
  assert (Hfresh : finished s !! idx = None).
  { destruct (finished s !! idx) as [f|] eqn:Hfi; [exfalso|done].
    rewrite <- Hfl in Hnd. cbn in Hnd.
    apply NoDup_app in Hnd as (_ & _ & Hnd). apply NoDup_app in Hnd as (_ & _ & Hnd).
    apply NoDup_cons in Hnd as [Hnin _].
    apply Hnin. rewrite !elem_of_app. right. left.
    apply list_elem_of_fmap. exists (idx, f). split; [done|].
    by apply elem_of_map_to_list. }
  split.
  - split; cbn.
    + rewrite <- Hk, <- Hfl, (map_to_list_insert _ _ _ Hfresh). cbn. solve_Permutation.
    + intros i c Hin. apply Hi. rewrite <- Hfl. revert Hin.
      rewrite !elem_of_app, ?elem_of_cons. tauto.
    + intros i f [[<- <-]|[Hne Hfi]]%lookup_insert_Some; [|by apply Hf].
      exists code. split; [|done]. apply Hi. rewrite <- Hfl.
      rewrite !elem_of_app, elem_of_cons. tauto.
    + done.
    + by rewrite length_insert.
    + intros HK Hnil. apply (f_equal length) in Hnil.
      rewrite length_insert in Hnil. apply lookup_lt_Some in Hth. cbn in Hnil. lia.
  - unfold pool_measure, in_flight; cbn.
    rewrite (map_size_insert_None _ _ _ Hfresh), <- Hfl. cbn. lia.
Qed.

Lemma pool_inv_yield idx s s' :
  inv s -> step (Yield idx) s = Some s' -> inv s' /\ pool_measure s' < pool_measure s.
Proof.
  intros [Hk Hi Hf Hr Ht Ha] Hstep. cbn in Hstep.
  unfold pool_keys, in_flight in *.
  destruct (pending s) as [|? ?] eqn:Hp; [|done]. rewrite ?Hp in *.
  destruct (finished s !! idx) as [f|] eqn:Hfi; [|done]. simplify_eq.
  destruct (Hf _ _ Hfi) as (c & Hc & ->).
  split.
  - split; cbn.
    + rewrite <- Hk, <- (map_to_list_delete _ _ _ Hfi), fmap_app. cbn.
      solve_Permutation.
    + done.
    + intros i f [_ Hfi']%lookup_delete_Some. by apply Hf.
    + intros i r [Hin|Hin]%elem_of_app; [by apply Hr|].
      apply list_elem_of_singleton in Hin. simplify_eq. by exists c.
    + done.
    + done.
  - unfold pool_measure, in_flight; cbn.
    rewrite map_size_delete_Some by done.
    assert (size (finished s) <> 0); [|lia].
    apply map_size_non_empty_iff. intros Hempty. by rewrite Hempty, lookup_empty in Hfi.
Qed.

Lemma pool_inv_step a s s' :
  inv s -> step a s = Some s' -> inv s' /\ pool_measure s' < pool_measure s.
Proof.
  destruct a; eauto using pool_inv_submit, pool_inv_take, pool_inv_finish,
    pool_inv_yield.
Qed.

Lemma pool_inv_run tr s s' : inv s -> prun tr s = Some s' -> inv s'.
Proof.
  revert s. induction tr as [|a tr IH]; intros s Hinv Hrun; cbn in Hrun.
  - by simplify_eq.
  - destruct (step a s) as [s1|] eqn:Hs; [|done].
    eapply IH; [|done]. by eapply pool_inv_step.
Qed.

Lemma pool_run_app tr1 tr2 s :
  prun (tr1 ++ tr2) s = prun tr1 s ≫= prun tr2.
Proof.
  revert s. induction tr1 as [|a tr1 IH]; intros s; cbn; [done|].
  destruct (step a s); [apply IH|done].
Qed.

Lemma pool_progress s :
  (1 <= max_workers)%Z -> inv s -> pool_measure s <> 0 ->
  exists a s', step a s = Some s'.
Proof.
  intros HK Hinv Hm.
  destruct (in_flight s) as [|running ?] eqn:Hfl.
  - destruct (pending s) as [|item rest] eqn:Hp.
    + destruct (queue s) as [|item rest] eqn:Hq.
      * assert (finished s <> ∅) as (i & f & Hf)%map_choose.
        { apply map_size_non_empty_iff. unfold pool_measure in Hm.
          rewrite Hfl, Hp, Hq in Hm. cbn in Hm. lia. }
        exists (Yield i). cbn. rewrite Hp, Hf. eauto.
      * assert (threads s !! 0 = Some None) as Ht.
        { apply omap_id_all_idle; [done|]. intros Hnil.
          destruct (inv_alive _ _ _ _ Hinv HK Hnil) as [Hq' _]. congruence. }
        exists (Take 0). cbn. rewrite Ht, Hq. eauto.
    + exists Submit. cbn. rewrite Hp.
      destruct (idle_sem s); [destruct (_ <? _)%Z|]; eauto.
  - destruct (omap_id_nonempty (threads s)) as (t & [idx code] & Ht).
    { unfold in_flight in Hfl. by rewrite Hfl. }
    exists (Finish t). cbn. rewrite Ht. eauto.
Qed.

(** Every state of the pool can be run to the end: no schedule blocks. *)
Lemma pool_completes s :
  (1 <= max_workers)%Z -> inv s ->
  exists tr s', prun tr s = Some s' /\ pool_measure s' = 0.
Proof.
  intros HK. remember (pool_measure s) as m eqn:Hm. revert s Hm.
  induction m as [m IH] using lt_wf_ind. intros s -> Hinv.
  destruct (decide (pool_measure s = 0)) as [Hz|Hnz].
  - by exists [], s.
  - destruct (pool_progress s HK Hinv Hnz) as (a & s1 & Hstep).
    destruct (pool_inv_step _ _ _ Hinv Hstep) as [Hinv1 Hlt].
    destruct (IH _ Hlt s1 eq_refl Hinv1) as (tr & s' & Hrun & Hz).
    exists (a :: tr), s'. cbn. by rewrite Hstep.
Qed.

Lemma pool_measure_zero s :
  inv s -> pool_measure s = 0 ->
  pending s = [] /\ length (results s) = length texts.
Proof.
  intros Hinv Hz. pose proof (inv_keys _ _ _ _ Hinv) as Hk.
  apply Permutation_length in Hk. unfold pool_keys, pool_measure in *.
  rewrite !length_app, !length_fmap, length_seq, length_map_to_list in Hk.
  split; [|lia]. destruct (pending s); [done|cbn in Hz; lia].
Qed.

Lemma pool_final_keys s :
  inv s -> pending s = [] -> length (results s) = length texts ->
  (results s).*1 ≡ₚ seq 0 (length texts).
Proof.
  intros Hinv Hp Hlen. pose proof (inv_keys _ _ _ _ Hinv) as Hk.
  pose proof (Permutation_length Hk) as Hl. unfold pool_keys in *.
  rewrite !length_app, !length_fmap, length_seq, length_map_to_list in Hl.
  rewrite Hp in *. cbn in *.
  rewrite (nil_length_inv (queue s)), (nil_length_inv (in_flight s)),
    (nil_length_inv (map_to_list (finished s))) in Hk
    by (rewrite ?length_map_to_list; lia).
  by cbn in Hk.
Qed.
End PoolFacts.

(** *** Sorting the results *)

Lemma PyStr_leb_total a b : PyStr.leb a b = true \/ PyStr.leb b a = true.
Proof.
  revert b. induction a as [|x a IH]; intros [|y b]; cbn; auto.
  destruct (PyStr.code x <? PyStr.code y)%N eqn:Hxy,
           (PyStr.code y <? PyStr.code x)%N eqn:Hyx; auto.
Qed.

Global Instance tuple_le_total : Total tuple_le.
Proof.
  intros [i a] [j b]. unfold tuple_le; cbn.
  destruct (lt_eq_lt_dec i j) as [[Hlt|Heq]|Hgt]; auto.
  subst j. destruct (PyStr_leb_total a b); auto.
Qed.

Lemma Sorted_seq j n : Sorted le (seq j n).
Proof.
  revert j. induction n as [|n IH]; intros j; cbn; constructor; [apply IH|].
  destruct n; cbn; constructor. lia.
Qed.

(** Sorting pairs whose indices are [0..n-1], each once, puts pair [i] at
    place [i]. *)
Lemma sort_by_index (l : list (nat * list ascii)) n :
  l.*1 ≡ₚ seq 0 n -> (merge_sort tuple_le l).*1 = seq 0 n.
Proof.
  intros Hperm. apply (Sorted_unique le).
  - apply (Sorted_fmap fst tuple_le le); [|apply Sorted_merge_sort, _].
    intros [i a] [j b] [?|[? _]]; cbn in *; lia.
  - apply Sorted_seq.
  - by rewrite merge_sort_Permutation.
Qed.

Lemma sorted_values (l : list (nat * list ascii)) n (g : nat -> list ascii) :
  l.*1 ≡ₚ seq 0 n -> (forall i r, (i, r) ∈ l -> r = g i) ->
  (merge_sort tuple_le l).*2 = g <$> seq 0 n.
Proof.
  intros Hperm Hval. rewrite <- (sort_by_index l n Hperm).
  assert (Hall : Forall (fun p => p.2 = g p.1) (merge_sort tuple_le l)).
  { apply Forall_forall. intros [i r] Hin. cbn. apply Hval.
    by rewrite <- (merge_sort_Permutation tuple_le l). }
  induction Hall as [|[i r] l' Hh _ IH]; [done|]. cbn in *. by rewrite Hh, IH.
Qed.

Section BatchFacts.
Variable oracle : nat -> list ascii -> oracle_outcome.
Variable max_workers : Z.
Variable verbose : bool.
Variable texts : list (list ascii).

Lemma batch_Returned tr out :
  batch_explain_with_gemini oracle tr texts max_workers verbose = Returned out <->
  (0 < max_workers)%Z
  /\ exists s, pool_run oracle max_workers verbose tr (pool_init texts) = Some s
       /\ pending s = [] /\ length (results s) = length texts
       /\ out = ((merge_sort tuple_le (results s)).*2, printed s).
Proof.
  unfold batch_explain_with_gemini.
  destruct (max_workers <=? 0)%Z eqn:HK.
  { apply Z.leb_le in HK. split; [done|]. intros [? _]. lia. }
  apply Z.leb_gt in HK.
  destruct (pool_run _ _ _ _ _) as [s|]; [|split; [done|by intros (_ & ? & ? & _)]].
  destruct (pending s) eqn:Hp.
  - destruct (Nat.eqb _ _) eqn:Hn.
    + apply Nat.eqb_eq in Hn. split.
      * intros [= <-]. split; [done|]. by exists s.
      * intros (_ & s' & [= <-] & _ & _ & ->). done.
    + apply Nat.eqb_neq in Hn. split; [done|].
      intros (_ & s' & [= <-] & _ & ? & _). done.
  - split; [done|]. intros (_ & s' & [= <-] & ? & _). congruence.
Qed.

Lemma explanations_imap :
  (fun i => explain_with_gemini (oracle i) (texts !!! i)) <$> seq 0 (length texts)
  = imap (fun i code => explain_with_gemini (oracle i) code) texts.
Proof.
  apply list_eq. intros i.
  rewrite list_lookup_fmap, list_lookup_imap.
  destruct (texts !! i) as [c|] eqn:Hc; cbn.
  - rewrite lookup_seq_lt by (by eapply lookup_lt_Some). cbn.
    by rewrite (list_lookup_total_correct _ _ _ Hc).
  - rewrite lookup_seq_ge; [done|]. by apply lookup_ge_None.
Qed.

(** Whatever the schedule, a batch that returns returns the explanation of
    text [i] at place [i]. *)
Lemma batch_Returned_values tr out :
  batch_explain_with_gemini oracle tr texts max_workers verbose = Returned out ->
  out.1 = imap (fun i code => explain_with_gemini (oracle i) code) texts.
Proof.
  intros (HK & s & Hrun & Hp & Hlen & ->)%batch_Returned. cbn.
  pose proof (pool_inv_run oracle max_workers verbose texts _ _ _
                (pool_inv_init oracle max_workers texts) Hrun) as Hinv.
  rewrite <- explanations_imap. apply sorted_values.
  - by apply (pool_final_keys oracle max_workers texts).
  - intros i r Hin. destruct (inv_results _ _ _ _ Hinv i r Hin) as (c & Hc & ->).
    by rewrite (list_lookup_total_correct _ _ _ Hc).
Qed.

(** A schedule that has run so far can be continued until the batch returns. *)
Lemma batch_completes tr s :
  (1 <= max_workers)%Z ->
  pool_run oracle max_workers verbose tr (pool_init texts) = Some s ->
  exists tr' out,
    batch_explain_with_gemini oracle (tr ++ tr') texts max_workers verbose
    = Returned out.
Proof.
  intros HK Hrun.
  pose proof (pool_inv_run oracle max_workers verbose texts _ _ _
                (pool_inv_init oracle max_workers texts) Hrun) as Hinv.
  destruct (pool_completes oracle max_workers verbose texts s HK Hinv)
    as (tr' & s' & Hrun' & Hz).
  pose proof (pool_inv_run _ _ _ _ _ _ _ Hinv Hrun') as Hinv'.
  destruct (pool_measure_zero _ _ _ _ Hinv' Hz) as [Hp Hlen].
  exists tr'. eexists. apply batch_Returned. split; [lia|].
  exists s'. split; [|done]. rewrite pool_run_app, Hrun. done.
Qed.
End BatchFacts.

(** C1: for every list of texts and every limit from 1 to 10, every run of
    the pool can be continued until the batch returns, and whatever the
    schedule the batch returns as many results as texts, result [i] being
    the explanation of text [i]. *)
Theorem batch_in_order (oracle : nat -> list ascii -> oracle_outcome)
  (texts : list (list ascii)) (max_workers : Z) (verbose : bool) :
  (1 <= max_workers <= 10)%Z ->
  (forall tr s,
      pool_run oracle max_workers verbose tr (pool_init texts) = Some s ->
      exists tr' out,
        batch_explain_with_gemini oracle (tr ++ tr') texts max_workers verbose
        = Returned out)
  /\ (forall tr out,
        batch_explain_with_gemini oracle tr texts max_workers verbose = Returned out ->
        length out.1 = length texts
        /\ forall i code, texts !! i = Some code ->
             out.1 !! i = Some (explain_with_gemini (oracle i) code)).
Proof.
  intros [HK _]. split.
  - intros tr s Hrun. by eapply batch_completes.
  - intros tr out Hret. rewrite (batch_Returned_values _ _ _ _ _ _ Hret).
    split; [apply length_imap|].
    intros i code Hc. by rewrite list_lookup_imap, Hc.
Qed.

Lemma idle_thread_lt {A} (l : list (option A)) t :
  l !! t = Some None -> length (omap id l) < length l.
Proof.
  revert t. induction l as [|[x|] l IH]; intros [|t] Ht; cbn in *; try done.
  - apply IH in Ht. lia.
  - pose proof (omap_id_length l). lia.
  - apply IH in Ht. lia.
Qed.

(** C3: at every moment of every run at most [max_workers] calls are in
    flight; a call starts only when fewer than [max_workers] are in flight,
    and it is the call at the head of the queue; every call is in one place:
    to submit, queued, in flight, finished or collected. *)
Theorem pool_bounded (oracle : nat -> list ascii -> oracle_outcome)
  (texts : list (list ascii)) (max_workers : Z) (verbose : bool)
  (tr : list action) (s : pool) :
  (1 <= max_workers <= 10)%Z ->
  pool_run oracle max_workers verbose tr (pool_init texts) = Some s ->
  (Z.of_nat (length (in_flight s)) <= max_workers)%Z
  /\ pool_keys s ≡ₚ seq 0 (length texts)
  /\ forall a s',
       pool_step oracle max_workers verbose a s = Some s' ->
       length (in_flight s) < length (in_flight s') ->
       (Z.of_nat (length (in_flight s)) < max_workers)%Z
       /\ exists item, queue s = item :: queue s'
                       /\ in_flight s' ≡ₚ item :: in_flight s.
Proof.
  intros [HK _] Hrun.
  pose proof (pool_inv_run oracle max_workers verbose texts _ _ _
                (pool_inv_init oracle max_workers texts) Hrun) as Hinv.
  pose proof (inv_threads _ _ _ _ Hinv) as Hth.
  pose proof (omap_id_length (threads s)) as Hle.
  unfold in_flight. split; [lia|]. split; [apply Hinv|].
  intros a s' Hstep Hgrow. destruct a as [|t|t|idx]; cbn in Hstep.
  - exfalso. destruct (pending s); [done|].
    destruct (idle_sem s); [destruct (_ <? _)%Z|]; simplify_eq; cbn in Hgrow;
      rewrite ?in_flight_snoc_idle in Hgrow; lia.
  - destruct (threads s !! t) as [[w|]|] eqn:Ht; try done.
    destruct (queue s) as [|item rest] eqn:Hq; [done|]. simplify_eq. cbn.
    pose proof (idle_thread_lt _ _ Ht). split; [lia|].
    exists item. split; [done|]. by apply omap_id_insert_Some.
  - exfalso. destruct (threads s !! t) as [[[idx code]|]|] eqn:Ht; try done.
    simplify_eq. cbn in Hgrow.
    pose proof (omap_id_insert_None _ _ _ Ht) as Hp.
    apply Permutation_length in Hp. cbn in Hp. lia.
  - exfalso. destruct (pending s); [|done].
    destruct (finished s !! idx); [|done]. simplify_eq. cbn in Hgrow. lia.
Qed.

(** ** The driver *)

Lemma get_js_content_fetch_result w path :
  get_js_content w path =
  (path, match fetch_result w path with
         | Content text => text
         | Error cause => lit "[ERROR] " ++ cause
         end).
Proof.
  unfold get_js_content, fetch_result.
  repeat match goal with |- context [match ?x with _ => _ end] => destruct x end;
    reflexivity.
Qed.

Lemma is_error_app cause : is_error (lit "[ERROR] " ++ cause) = true.
Proof. reflexivity. Qed.

Lemma save_loop_spec a o items :
  forall i pre es out saved fs,
    length pre = i -> length es = length items ->
    save_loop a o i items (pre ++ es) (out, saved, fs)
    = Returned (out ++ saved_messages a items,
                saved ++ zip_with (pair_saved o) items es,
                foldl write_saved fs (zip_with (pair_saved o) items es)).
Proof.
  unfold saved_messages.
  induction items as [|[path code] items IH]; intros i pre es out saved fs Hi Hes.
  - destruct es; [|done]. cbn.
    destruct (verbose a && negb (quiet a)); by rewrite !app_nil_r.
  - destruct es as [|ex es]; [done|]. cbn [save_loop zip_with].
    rewrite (list_lookup_middle pre es ex i) by done.
    replace (pre ++ ex :: es) with ((pre ++ [ex]) ++ es) by (by rewrite <- app_assoc).
    rewrite IH; [|rewrite length_app; cbn; lia|cbn in Hes; lia].
    rewrite <- !app_assoc.
    destruct (verbose a && negb (quiet a)); reflexivity.
Qed.

Lemma saved_zip e (valid : list (list ascii * list ascii)) :
  zip_with (pair_saved (hash_order e)) valid
    (imap (fun i code => explain_with_gemini (oracle e i) code)
          (map (fun pc => beautify_js e pc.2) valid))
  = imap (saved_of e) valid.
Proof.
  apply list_eq. intros i.
  rewrite lookup_zip_with, !list_lookup_imap.
  change (map ?f ?l) with (f <$> l). rewrite list_lookup_fmap.
  by destruct (valid !! i).
Qed.

Lemma clamp_threads_range t : (1 <= clamp_threads t <= 10)%Z.
Proof. unfold clamp_threads. lia. Qed.

Lemma skipped_printed (a : Args) (errored : list (list ascii * list ascii))
  (more : list message) pe :
  quiet a = false -> pe ∈ errored ->
  MsgSkipped pe.1 pe.2 ∈
    (if quiet a then [] else map (fun pe => MsgSkipped pe.1 pe.2) errored) ++ more.
Proof.
  intros -> Hin. apply elem_of_app. left.
  change (map ?f ?l) with (f <$> l). apply list_elem_of_fmap. by exists pe.
Qed.

(** [main] never raises: along schedules of a complete execution it
    returns, and then it has done what [main_post] says. *)
Lemma main_cases a e :
  main a e = NoRun \/ exists o, main a e = Returned o /\ main_post a e o.
Proof.
  unfold main, main_post, raw_results_of.
  destruct (input_exists e); cbn [negb].
  2:{ right. eexists. split; [reflexivity|]. cbn. repeat split; try done.
      intros _ pe Hin. by apply elem_of_nil in Hin. }
  destruct (read_paths (input_lines e)) as [|p ps] eqn:Hps.
  { right. eexists. split; [reflexivity|]. cbn. repeat split; try done.
    intros _ pe Hin. by apply elem_of_nil in Hin. }
  destruct (gather_all _ _ _) as [raw|] eqn:Hg; [|by left].
  apply gather_all_Some in Hg as [Hraw _]. rewrite <- Hraw. clear Hraw.
  destruct (valid_of raw) as [|v vs] eqn:Hv.
  { right. eexists. split; [reflexivity|]. cbn. rewrite ?Hv.
    repeat split; try done. intros Hq pe Hin. rewrite <- app_nil_r.
    rewrite <- app_assoc. by apply skipped_printed. }
  rewrite <- Hv. set (valid := valid_of raw).
  destruct (batch_explain_with_gemini _ _ _ _ _) as [b|msg|] eqn:Hb;
    cbn [run_bind]; [| |by left].
  - right. pose proof (batch_Returned_values _ _ _ _ _ _ Hb) as Hb1.
    change (b.1) with ([] ++ b.1).
    rewrite save_loop_spec; [|done|by rewrite Hb1, length_imap, length_map].
    cbn [run_bind]. eexists. split; [reflexivity|]. cbn.
    rewrite Hb1, saved_zip. repeat split; try done.
    intros Hq pe Hin. rewrite <- !app_assoc. by apply skipped_printed.
  - exfalso. unfold batch_explain_with_gemini in Hb.
    pose proof (clamp_threads_range (thread a)) as HK.
    destruct (_ <=? _)%Z eqn:HK'; [apply Z.leb_le in HK'; lia|].
    destruct (pool_run _ _ _ _ _) as [s|]; [|done].
    destruct (pending s); [|done]. by destruct (Nat.eqb _ _).
Qed.

Lemma main_Returned a e o : main a e = Returned o -> main_post a e o.
Proof.
  intros Hm. destruct (main_cases a e) as [Hn|(o' & Ho & Hpost)]; congruence.
Qed.

Lemma main_not_Raised a e msg : main a e <> Raised msg.
Proof.
  intros Hm. destruct (main_cases a e) as [Hn|(o' & Ho & Hpost)]; congruence.
Qed.

(** Schedules of a complete execution exist: all fetches complete and the
    pool runs to its end. *)
Ltac env_simpl :=
  unfold main, reschedule;
  cbn [input_exists input_lines world fetch_order beautify_js oracle pool_trace
       hash_order].

Lemma main_returns a e :
  exists order tr o, main a (reschedule e order tr) = Returned o.
Proof.
  destruct (input_exists e) eqn:Hin.
  2:{ exists [], []. env_simpl. rewrite Hin. eexists; reflexivity. }
  destruct (read_paths (input_lines e)) as [|p ps] eqn:Hps.
  { exists [], []. env_simpl. rewrite Hin, Hps. eexists; reflexivity. }
  set (raw := imap (fun i q => get_js_content (world e i) q) (p :: ps)).
  assert (Hg : gather_all (world e) (seq 0 (length (p :: ps))) (p :: ps) = Some raw).
  { apply gather_all_Some. split; [done|].
    intros i Hi. apply elem_of_seq. lia. }
  exists (seq 0 (length (p :: ps))).
  destruct (valid_of raw) as [|v vs] eqn:Hv.
  { exists []. env_simpl. rewrite Hin, Hps. cbn [negb]. rewrite Hg, Hv.
    eexists; reflexivity. }
  pose proof (clamp_threads_range (thread a)) as HK.
  destruct (batch_completes (oracle e) (clamp_threads (thread a)) (verbose a)
              (map (fun pc => beautify_js e pc.2) (v :: vs)) [] _ (proj1 HK) eq_refl)
    as (tr & b & Hb).
  exists tr. env_simpl. rewrite Hin, Hps. cbn [negb]. rewrite Hg, Hv.
  cbn [app] in Hb. rewrite Hb. cbn [run_bind].
  pose proof (batch_Returned_values _ _ _ _ _ _ Hb) as Hb1.
  change (b.1) with ([] ++ b.1).
  rewrite save_loop_spec; [|done|by rewrite Hb1, length_imap, length_map].
  cbn [run_bind]. eexists; reflexivity.
Qed.

Lemma valid_of_elem raw pc :
  pc ∈ valid_of raw <-> pc ∈ raw /\ is_error pc.2 = false.
Proof.
  unfold valid_of. rewrite !list_elem_of_In, filter_In, negb_true_iff. done.
Qed.

Lemma errored_of_elem raw pc :
  pc ∈ errored_of raw <-> pc ∈ raw /\ is_error pc.2 = true.
Proof. unfold errored_of. by rewrite !list_elem_of_In, filter_In. Qed.

Lemma raw_results_lookup e i path :
  input_exists e = true -> read_paths (input_lines e) !! i = Some path ->
  get_js_content (world e i) path ∈ raw_results_of e.
Proof.
  intros Hin Hp. unfold raw_results_of. rewrite Hin.
  apply list_elem_of_lookup. exists i. by rewrite list_lookup_imap, Hp.
Qed.

(** C5, as amended: [main] never raises and returns under the schedules of a
    complete execution; an item whose fetch fails is among the errored
    items, with its cause after the marker; the errored items are printed
    as skipped unless the run is quiet; the valid items are the results
    whose text does not begin with the marker, the errored items the
    others; and it is the valid items, all of them and no other, that are
    beautified, sent to the oracle and saved. *)
Theorem fetch_errors_skipped (a : Args) (e : Env) :
  (forall msg, main a e <> Raised msg)
  /\ (exists order tr o, main a (reschedule e order tr) = Returned o)
  /\ forall o, main a e = Returned o ->
       (forall i path cause,
           input_exists e = true ->
           read_paths (input_lines e) !! i = Some path ->
           fetch_result (world e i) path = Error cause ->
           (path, lit "[ERROR] " ++ cause) ∈ out_errored o)
       /\ (forall pc, pc ∈ out_valid_js o <->
                      pc ∈ raw_results_of e /\ is_error pc.2 = false)
       /\ (forall pc, pc ∈ out_errored o <->
                      pc ∈ raw_results_of e /\ is_error pc.2 = true)
       /\ (quiet a = false ->
           forall pe, pe ∈ out_errored o -> MsgSkipped pe.1 pe.2 ∈ stdout o)
       /\ out_beautified o = (fun pc => beautify_js e pc.2) <$> out_valid_js o
       /\ out_saved o = imap (saved_of e) (out_valid_js o).
Proof.
  split; [intros msg; apply main_not_Raised|].
  split; [apply main_returns|].
  intros o Hm.
  destruct (main_Returned _ _ _ Hm) as (Hv & He & Hb & Hs & _ & Hq).
  split; [|split; [|split; [|split; [|split]]]]; try done.
  - intros i path cause Hin Hp Hf. rewrite He. apply errored_of_elem.
    pose proof (raw_results_lookup e i path Hin Hp) as Hraw.
    rewrite get_js_content_fetch_result, Hf in Hraw. split; [done|].
    apply is_error_app.
  - intros pc. rewrite Hv. apply valid_of_elem.
  - intros pc. rewrite He. apply errored_of_elem.
Qed.

(** C5 as stated fails: in the example run the fetch of [e.js] yields
    content, and yet the item is neither among the valid items nor saved. *)
Lemma fetched_content_skipped :
  exists o, main demo_args demo_env = Returned o
    /\ read_paths (input_lines demo_env) !! 2 = Some (lit "e.js")
    /\ fetch_result (world demo_env 2) (lit "e.js")
       = Content (lit "[ERROR] is how this file begins")
    /\ (out_valid_js o).*1 = [lit "a.js"; lit "lib/b.js?v=2"]
    /\ out_beautified o = (out_valid_js o).*2
    /\ saved_name <$> out_saved o = [lit "a"; lit "b"].
Proof.
  eexists. split; [vm_compute; reflexivity|].
  repeat split; vm_compute; reflexivity.
Qed.

Lemma raw_results_with_oracle e orc tr :
  raw_results_of (with_oracle e orc tr) = raw_results_of e.
Proof. reflexivity. Qed.

(** ** The claims on the example runs *)

(** The example of the specification: four texts, the oracle failing on the
    odd indices, two workers. *)
Lemma batch_in_order_witness :
  (1 <= 2 <= 10)%Z
  /\ (forall tr s,
         pool_run demo_oracle 2 false tr
           (pool_init [lit "a"; lit "b"; lit "c"; lit "d"]) = Some s ->
         exists tr' out,
           batch_explain_with_gemini demo_oracle (tr ++ tr')
             [lit "a"; lit "b"; lit "c"; lit "d"] 2 false = Returned out)
  /\ (forall tr out,
         batch_explain_with_gemini demo_oracle tr
           [lit "a"; lit "b"; lit "c"; lit "d"] 2 false = Returned out ->
         length out.1 = length [lit "a"; lit "b"; lit "c"; lit "d"]
         /\ forall i code,
              [lit "a"; lit "b"; lit "c"; lit "d"] !! i = Some code ->
              out.1 !! i = Some (explain_with_gemini (demo_oracle i) code)).
Proof.
  split; [lia|].
  apply (batch_in_order demo_oracle [lit "a"; lit "b"; lit "c"; lit "d"] 2 false).
  lia.
Defined.

(** A run of the pool on four texts with two workers, stopped while two
    calls are in flight and two are queued. *)
Lemma pool_bounded_witness :
  (1 <= 2 <= 10)%Z
  /\ exists s,
       pool_run demo_oracle 2 false [Submit; Submit; Submit; Submit; Take 1; Take 0]
         (pool_init [lit "a"; lit "b"; lit "c"; lit "d"]) = Some s
       /\ ((Z.of_nat (length (in_flight s)) <= 2)%Z
           /\ pool_keys s ≡ₚ seq 0 (length [lit "a"; lit "b"; lit "c"; lit "d"])
           /\ forall a s',
                pool_step demo_oracle 2 false a s = Some s' ->
                length (in_flight s) < length (in_flight s') ->
                (Z.of_nat (length (in_flight s)) < 2)%Z
                /\ exists item, queue s = item :: queue s'
                                /\ in_flight s' ≡ₚ item :: in_flight s).
Proof.
  split; [lia|]. eexists. split; [vm_compute; reflexivity|].
  apply (pool_bounded demo_oracle [lit "a"; lit "b"; lit "c"; lit "d"] 2 false
           [Submit; Submit; Submit; Submit; Take 1; Take 0]);
    [lia|vm_compute; reflexivity].
Defined.

Lemma gather_all_witness :
  [2; 0; 1] ≡ₚ seq 0 (length [lit "a.js"; lit "http://x/y.js"; lit "nowhere"])
  /\ exists results,
       gather_all (fun _ => demo_world) [2; 0; 1]
         [lit "a.js"; lit "http://x/y.js"; lit "nowhere"] = Some results
       /\ length results = length [lit "a.js"; lit "http://x/y.js"; lit "nowhere"]
       /\ forall i path,
            [lit "a.js"; lit "http://x/y.js"; lit "nowhere"] !! i = Some path ->
            results !! i = Some (get_js_content demo_world path)
            /\ (get_js_content demo_world path).1 = path.
Proof.
  assert (H : [2; 0; 1] ≡ₚ seq 0 (length [lit "a.js"; lit "http://x/y.js"; lit "nowhere"])).
  { cbn. solve_Permutation. }
  split; [exact H|].
  exact (gather_all_in_order (fun _ => demo_world) [2; 0; 1]
           [lit "a.js"; lit "http://x/y.js"; lit "nowhere"] H).
Defined.

(** * Further properties of the code *)

(** ** [str.strip] as the script uses it *)

Lemma lstrip_drop_while s : PyStr.lstrip s = drop_while PyStr.isspace s.
Proof. induction s as [|c s IH]; cbn; [done|]. by destruct (PyStr.isspace c). Qed.

Lemma lstrip_split s :
  exists ws, s = ws ++ PyStr.lstrip s
             /\ Forall (fun c => PyStr.isspace c = true) ws.
Proof.
  exists (take_while PyStr.isspace s). rewrite lstrip_drop_while.
  split; [by rewrite take_drop_while|apply take_while_Forall].
Qed.

Lemma lstrip_head s c r : PyStr.lstrip s = c :: r -> PyStr.isspace c = false.
Proof. rewrite lstrip_drop_while. apply drop_while_head. Qed.

Lemma rstrip_split s :
  exists ws, s = PyStr.rstrip s ++ ws
             /\ Forall (fun c => PyStr.isspace c = true) ws.
Proof.
  unfold PyStr.rstrip. destruct (lstrip_split (rev s)) as (ws & Hs & Hws).
  exists (rev ws). split.
  - rewrite <- rev_app_distr, <- Hs. by rewrite rev_involutive.
  - apply Forall_forall. intros c Hc. rewrite Forall_forall in Hws. apply Hws.
    apply list_elem_of_In. apply in_rev. by apply list_elem_of_In.
Qed.

Lemma rstrip_last s c : last (PyStr.rstrip s) = Some c -> PyStr.isspace c = false.
Proof.
  unfold PyStr.rstrip. destruct (PyStr.lstrip (rev s)) as [|x r] eqn:Hl; [done|].
  cbn [rev]. rewrite last_snoc. intros [= <-]. by eapply lstrip_head.
Qed.

Lemma strip_split s :
  exists ws1 ws2,
    s = ws1 ++ PyStr.strip s ++ ws2
    /\ Forall (fun c => PyStr.isspace c = true) ws1
    /\ Forall (fun c => PyStr.isspace c = true) ws2.
Proof.
  unfold PyStr.strip.
  destruct (lstrip_split s) as (ws1 & Hs & Hws1).
  destruct (rstrip_split (PyStr.lstrip s)) as (ws2 & Ht & Hws2).
  exists ws1, ws2. split; [|done]. by rewrite <- Ht.
Qed.

Lemma strip_head s c r : PyStr.strip s = c :: r -> PyStr.isspace c = false.
Proof.
  unfold PyStr.strip. intros Hc.
  destruct (rstrip_split (PyStr.lstrip s)) as (ws2 & Ht & _).
  rewrite Hc in Ht. cbn in Ht. by eapply lstrip_head.
Qed.

Lemma strip_last s c : last (PyStr.strip s) = Some c -> PyStr.isspace c = false.
Proof. apply rstrip_last. Qed.

(** X1: what [strip] removes is white space at both ends, and all of it:
    the result neither begins nor ends with white space.  This is the
    explanation of a call of the oracle that succeeds. *)
Theorem explain_stripped (generate_content : list ascii -> oracle_outcome)
  (code text : list ascii) :
  generate_content (prompt_head ++ code ++ prompt_tail) = Response text ->
  (exists ws1 ws2,
      text = ws1 ++ explain_with_gemini generate_content code ++ ws2
      /\ Forall (fun c => PyStr.isspace c = true) ws1
      /\ Forall (fun c => PyStr.isspace c = true) ws2)
  /\ (forall c r, explain_with_gemini generate_content code = c :: r ->
                  PyStr.isspace c = false)
  /\ (forall c, last (explain_with_gemini generate_content code) = Some c ->
                PyStr.isspace c = false).
Proof.
  intros Hg. unfold explain_with_gemini. rewrite Hg.
  split; [apply strip_split|]. split; [apply strip_head|apply strip_last].
Qed.

Lemma explain_stripped_witness :
  demo_oracle 0 (prompt_head ++ lit "x" ++ prompt_tail)
  = Response (lit " nothing to report ")
  /\ ((exists ws1 ws2,
          lit " nothing to report "
          = ws1 ++ explain_with_gemini (demo_oracle 0) (lit "x") ++ ws2
          /\ Forall (fun c => PyStr.isspace c = true) ws1
          /\ Forall (fun c => PyStr.isspace c = true) ws2)
      /\ (forall c r, explain_with_gemini (demo_oracle 0) (lit "x") = c :: r ->
                      PyStr.isspace c = false)
      /\ (forall c, last (explain_with_gemini (demo_oracle 0) (lit "x")) = Some c ->
                    PyStr.isspace c = false)).
Proof.
  split; [reflexivity|].
  apply (explain_stripped (demo_oracle 0) (lit "x") (lit " nothing to report ")).
  reflexivity.
Defined.

(** ** The list of paths *)

(** X2: the paths [main] works on are the lines of the input stripped of
    white space at both ends, without the blank ones and in the order of
    the file: no path is empty, none begins or ends with white space. *)
Theorem read_paths_spec (lines : list (list ascii)) :
  (forall p, p ∈ read_paths lines <->
             p <> [] /\ exists l, l ∈ lines /\ p = PyStr.strip l)
  /\ (forall p c r, p ∈ read_paths lines -> p = c :: r -> PyStr.isspace c = false)
  /\ (forall p c, p ∈ read_paths lines -> last p = Some c -> PyStr.isspace c = false)
  /\ (forall more, read_paths (lines ++ more) = read_paths lines ++ read_paths more)
  /\ length (read_paths lines) <= length lines.
Proof.
  assert (Hin : forall p, p ∈ read_paths lines <->
                          p <> [] /\ exists l, l ∈ lines /\ p = PyStr.strip l).
  { intros p. unfold read_paths. rewrite list_elem_of_In, filter_In, in_map_iff.
    rewrite negb_true_iff, Nat.eqb_neq. split.
    - intros [(l & <- & Hl) Hne]. split.
      + intros Hnil. by rewrite Hnil in Hne.
      + exists l. split; [by apply list_elem_of_In|done].
    - intros [Hne (l & Hl & ->)]. split.
      + exists l. split; [done|by apply list_elem_of_In].
      + destruct (PyStr.strip l); [done|cbn; lia]. }
  split; [exact Hin|]. split; [|split; [|split]].
  - intros p c r (_ & l & _ & ->)%Hin Hp. by eapply strip_head.
  - intros p c (_ & l & _ & ->)%Hin Hp. by eapply strip_last.
  - intros more. unfold read_paths. by rewrite map_app, List.filter_app.
  - unfold read_paths. etransitivity; [apply List.filter_length_le|].
    by rewrite length_map.
Qed.

(** ** The Fetcher and the split of its results *)

(** X3: [gather_all] returns exactly when every fetch has completed; an
    index out of range or repeated in the completion order changes nothing;
    and what it returns is the result of fetch [i] at place [i]. *)
Theorem gather_all_returns_iff (w : nat -> World) (order : list nat)
  (paths : list (list ascii)) :
  (is_Some (gather_all w order paths) <->
   forall i, i < length paths -> i ∈ order)
  /\ (forall r, gather_all w order paths = Some r ->
                r = imap (fun i p => get_js_content (w i) p) paths)
  /\ (forall extra,
         Forall (fun i => length paths <= i \/ i ∈ order) extra ->
         gather_all w (order ++ extra) paths = gather_all w order paths).
Proof.
  split; [|split].
  - split.
    + intros [r Hr]. by apply gather_all_Some in Hr as [_ ?].
    + intros Hall. eexists. apply gather_all_Some. by split.
  - intros r Hr. by apply gather_all_Some in Hr as [? _].
  - intros extra Hextra.
    assert (Hiff : (forall i, i < length paths -> i ∈ order ++ extra) <->
                   (forall i, i < length paths -> i ∈ order)).
    { split; intros Hall i Hi.
      - pose proof (Hall i Hi) as [?|Hin]%elem_of_app; [done|].
        rewrite Forall_forall in Hextra. destruct (Hextra i Hin); [lia|done].
      - apply elem_of_app. left. by apply Hall. }
    destruct (gather_all w order paths) as [r|] eqn:Hg.
    + apply gather_all_Some in Hg as [-> Hall].
      apply gather_all_Some. split; [done|]. exact (proj2 Hiff Hall).
    + destruct (gather_all w (order ++ extra) paths) as [r|] eqn:Hg'; [|done].
      apply gather_all_Some in Hg' as [-> Hall].
      assert (gather_all w order paths
              = Some (imap (fun i p => get_js_content (w i) p) paths)) as Hs
        by (apply gather_all_Some; split; [done|exact (proj1 Hiff Hall)]).
      congruence.
Qed.

Lemma filter_partition {A} (f : A -> bool) (l : list A) :
  List.filter (fun x => negb (f x)) l ++ List.filter f l ≡ₚ l.
Proof.
  induction l as [|x l IH]; cbn; [done|].
  destruct (f x); cbn.
  - by rewrite <- Permutation_middle, IH.
  - by rewrite IH.
Qed.

Lemma filter_sublist {A} (f : A -> bool) (l : list A) :
  List.filter f l `sublist_of` l.
Proof.
  induction l as [|x l IH]; cbn; [constructor|].
  destruct (f x); by constructor.
Qed.

Lemma raw_results_paths e :
  (raw_results_of e).*1 = if input_exists e then read_paths (input_lines e) else [].
Proof.
  unfold raw_results_of. destruct (input_exists e); [|done].
  apply list_eq. intros i. rewrite list_lookup_fmap, list_lookup_imap.
  destruct (read_paths (input_lines e) !! i); [|done]. cbn.
  by rewrite get_js_content_path.
Qed.

(** X4: when [main] returns, every path it read is either saved, with one
    record, or listed as errored, never both and never dropped: the valid
    and the errored items together are the fetched ones, each kept in the
    order of the input. *)
Theorem fetched_items_partition (a : Args) (e : Env) (o : Outcome) :
  main a e = Returned o ->
  out_valid_js o ++ out_errored o ≡ₚ raw_results_of e
  /\ out_valid_js o `sublist_of` raw_results_of e
  /\ out_errored o `sublist_of` raw_results_of e
  /\ (raw_results_of e).*1
     = (if input_exists e then read_paths (input_lines e) else [])
  /\ length (out_saved o) + length (out_errored o) = length (raw_results_of e).
Proof.
  intros Hm.
  destruct (main_Returned _ _ _ Hm) as (Hv & He & _ & Hs & _ & _).
  assert (Hp : out_valid_js o ++ out_errored o ≡ₚ raw_results_of e).
  { rewrite Hv, He. apply filter_partition. }
  split; [done|]. split; [rewrite Hv; apply filter_sublist|].
  split; [rewrite He; apply filter_sublist|].
  split; [apply raw_results_paths|].
  rewrite Hs, length_imap, <- length_app. by rewrite Hp.
Qed.

Lemma fetched_items_witness :
  exists o, main demo_args demo_env = Returned o
    /\ (out_valid_js o ++ out_errored o ≡ₚ raw_results_of demo_env
        /\ out_valid_js o `sublist_of` raw_results_of demo_env
        /\ out_errored o `sublist_of` raw_results_of demo_env
        /\ (raw_results_of demo_env).*1
           = (if input_exists demo_env
              then read_paths (input_lines demo_env) else [])
        /\ length (out_saved o) + length (out_errored o)
           = length (raw_results_of demo_env)).
Proof.
  eexists. split; [vm_compute; reflexivity|].
  apply (fetched_items_partition demo_args demo_env). vm_compute. reflexivity.
Defined.

(** ** More on the thread pool *)

Section PoolMore.
Variable oracle : nat -> list ascii -> oracle_outcome.
Variable max_workers : Z.
Variable verbose : bool.
Variable texts : list (list ascii).

Local Abbreviation inv := (pool_inv oracle max_workers texts).
Local Abbreviation step := (pool_step oracle max_workers verbose).
Local Abbreviation prun := (pool_run oracle max_workers verbose).

(** A property kept by every step is kept by every run. *)
Lemma pool_run_preserves (P : pool -> Prop) :
  (forall a s s', inv s -> P s -> step a s = Some s' -> P s') ->
  forall tr s s', inv s -> P s -> prun tr s = Some s' -> P s'.
Proof.
  intros Hstep tr. induction tr as [|a tr IH]; intros s s' Hinv HP Hrun;
    cbn in Hrun.
  - by simplify_eq.
  - destruct (step a s) as [s1|] eqn:Hs; [|done].
    apply (IH s1 s'); [|by eapply Hstep|done].
    by destruct (pool_inv_step oracle max_workers verbose texts a s s1 Hinv Hs).
Qed.

Lemma pool_places s :
  inv s ->
  length (pending s) + length (queue s) + length (in_flight s)
  + size (finished s) + length (results s) = length texts.
Proof.
  intros Hinv. pose proof (inv_keys _ _ _ _ Hinv) as Hk.
  apply Permutation_length in Hk. unfold pool_keys in Hk.
  rewrite !length_app, !length_fmap, length_seq, length_map_to_list in Hk. lia.
Qed.

(** Each step does one of the four things that are to be done for a text. *)
Lemma pool_step_exact a s s' :
  inv s -> step a s = Some s' -> S (pool_measure s') = pool_measure s.
Proof.
  intros Hinv Hstep.
  destruct (pool_inv_step oracle max_workers verbose texts a s s' Hinv Hstep)
    as [Hinv' _].
  pose proof (pool_places s Hinv) as Hn.
  pose proof (pool_places s' Hinv') as Hn'.
  unfold pool_measure. destruct a as [|t|t|idx]; cbn in Hstep.
  - destruct (pending s) as [|item rest] eqn:Hp; [done|].
    assert (length (pending s') = length rest
            /\ length (queue s') = S (length (queue s))
            /\ length (in_flight s') = length (in_flight s)
            /\ finished s' = finished s) as (H1 & H2 & H3 & H4).
    { unfold in_flight.
      destruct (idle_sem s); [destruct (_ <? _)%Z|]; simplify_eq; cbn;
        rewrite ?in_flight_snoc_idle, length_app; cbn; repeat split; lia. }
    rewrite H1, H2, H3, H4. cbn. lia.
  - destruct (threads s !! t) as [[w|]|] eqn:Ht; try done.
    destruct (queue s) as [|item rest] eqn:Hq; [done|]. simplify_eq.
    pose proof (omap_id_insert_Some _ _ item Ht) as Hfl.
    apply Permutation_length in Hfl. unfold in_flight in *. cbn in *. lia.
  - destruct (threads s !! t) as [[[idx code]|]|] eqn:Ht; try done. simplify_eq.
    pose proof (omap_id_insert_None _ _ _ Ht) as Hfl.
    apply Permutation_length in Hfl. unfold in_flight in *. cbn in *. lia.
  - destruct (pending s) eqn:Hp; [|done].
    destruct (finished s !! idx) eqn:Hf; [|done]. simplify_eq.
    unfold in_flight in *. cbn in *. rewrite length_app in Hn'. cbn in Hn'. lia.
Qed.

Lemma pool_run_exact tr s s' :
  inv s -> prun tr s = Some s' -> length tr + pool_measure s' = pool_measure s.
Proof.
  revert s. induction tr as [|a tr IH]; intros s Hinv Hrun; cbn in Hrun.
  - by simplify_eq.
  - destruct (step a s) as [s1|] eqn:Hs; [|done].
    destruct (pool_inv_step oracle max_workers verbose texts a s s1 Hinv Hs)
      as [Hinv1 _].
    pose proof (pool_step_exact a s s1 Hinv Hs).
    pose proof (IH s1 Hinv1 Hrun). cbn [length]. lia.
Qed.

Lemma pool_measure_init : pool_measure (pool_init texts) = 4 * length texts.
Proof.
  unfold pool_measure, pool_init, in_flight, enumerate; cbn.
  rewrite length_imap, map_size_empty. lia.
Qed.

Lemma pool_fifo_step a s s' :
  inv s -> pool_fifo texts s -> step a s = Some s' -> pool_fifo texts s'.
Proof.
  intros _ (m & Hm & Hq) Hstep. destruct a as [|t|t|idx]; cbn in Hstep.
  - destruct (pending s) as [|item rest] eqn:Hp; [done|].
    exists m. split; [done|].
    assert (queue s' = queue s ++ [item] /\ pending s' = rest) as [-> ->].
    { destruct (idle_sem s); [destruct (_ <? _)%Z|]; by simplify_eq. }
    by rewrite fmap_app, <- app_assoc.
  - destruct (threads s !! t) as [[w|]|]; try done.
    destruct (queue s) as [|item rest] eqn:Hqs; [done|]. simplify_eq. cbn in *.
    destruct (length texts - m) as [|k] eqn:Hk; [done|]. cbn in Hq.
    injection Hq as Hitem Hrest. exists (S m). split; [lia|].
    replace (length texts - S m) with k by lia. done.
  - destruct (threads s !! t) as [[[idx code]|]|]; try done. simplify_eq.
    by exists m.
  - destruct (pending s) eqn:Hp; [|done].
    destruct (finished s !! idx); [|done]. simplify_eq. cbn.
    by exists m.
Qed.

Lemma pool_fifo_init : pool_fifo texts (pool_init texts).
Proof.
  exists 0. split; [lia|]. cbn. rewrite enumerate_keys. by rewrite Nat.sub_0_r.
Qed.

Lemma pool_spawned_step a s s' :
  inv s -> pool_spawned texts s -> step a s = Some s' -> pool_spawned texts s'.
Proof.
  unfold pool_spawned. intros _ Hs Hstep. destruct a as [|t|t|idx]; cbn in Hstep.
  - destruct (pending s) as [|item rest] eqn:Hp; [done|]. cbn in Hs.
    destruct (idle_sem s); [destruct (_ <? _)%Z|]; simplify_eq; cbn;
      rewrite ?length_app; cbn; lia.
  - destruct (threads s !! t) as [[w|]|]; try done.
    destruct (queue s); [done|]. simplify_eq. cbn. by rewrite length_insert.
  - destruct (threads s !! t) as [[[idx code]|]|]; try done. simplify_eq. cbn.
    by rewrite length_insert.
  - destruct (pending s) eqn:Hp; [|done].
    destruct (finished s !! idx); [|done]. simplify_eq. cbn in *. lia.
Qed.

Lemma pool_printed_step a s s' :
  inv s -> pool_printed verbose s -> step a s = Some s' -> pool_printed verbose s'.
Proof.
  unfold pool_printed. intros _ Hs Hstep. destruct a as [|t|t|idx]; cbn in Hstep.
  - destruct (pending s) as [|item rest] eqn:Hp; [done|].
    destruct (idle_sem s); [destruct (_ <? _)%Z|]; by simplify_eq.
  - destruct (threads s !! t) as [[w|]|]; try done.
    destruct (queue s); [done|]. by simplify_eq.
  - destruct (threads s !! t) as [[[idx code]|]|]; try done. by simplify_eq.
  - destruct (pending s) eqn:Hp; [|done].
    destruct (finished s !! idx); [|done]. simplify_eq. cbn. rewrite Hs.
    destruct verbose; [|done]. by rewrite fmap_app.
Qed.

Lemma pool_printed_init : pool_printed verbose (pool_init texts).
Proof. unfold pool_printed. by destruct verbose. Qed.
End PoolMore.

Lemma pool_run_inv oracle max_workers verbose texts tr s :
  pool_run oracle max_workers verbose tr (pool_init texts) = Some s ->
  pool_inv oracle max_workers texts s.
Proof.
  intros Hrun. eapply pool_inv_run; [apply pool_inv_init|exact Hrun].
Qed.

(** X5: the pool terminates: no run has more than four steps for each text
    (submit, take, finish, yield), and a run on which the batch returns has
    exactly that many. *)
Theorem pool_run_length (oracle : nat -> list ascii -> oracle_outcome)
  (texts : list (list ascii)) (max_workers : Z) (verbose : bool)
  (tr : list action) (s : pool) :
  pool_run oracle max_workers verbose tr (pool_init texts) = Some s ->
  length tr <= 4 * length texts
  /\ (forall out,
         batch_explain_with_gemini oracle tr texts max_workers verbose
         = Returned out ->
         length tr = 4 * length texts).
Proof.
  intros Hrun.
  pose proof (pool_run_exact oracle max_workers verbose texts tr (pool_init texts) s
                (pool_inv_init oracle max_workers texts) Hrun) as Hex.
  rewrite pool_measure_init in Hex. split; [lia|].
  intros out (_ & s' & Hrun' & Hp & Hlen & _)%batch_Returned.
  rewrite Hrun in Hrun'. injection Hrun' as <-.
  pose proof (pool_places oracle max_workers texts s
                (pool_run_inv _ _ _ _ _ _ Hrun)) as Hn.
  unfold pool_measure in Hex. rewrite Hp in *. cbn in *. lia.
Qed.

Lemma pool_run_length_witness :
  exists s,
    pool_run demo_oracle 2 false [Submit; Submit; Take 0; Finish 0; Yield 0]
      (pool_init [lit "a"; lit "b"]) = Some s
    /\ (length [Submit; Submit; Take 0; Finish 0; Yield 0]
        <= 4 * length [lit "a"; lit "b"]
        /\ (forall out,
               batch_explain_with_gemini demo_oracle
                 [Submit; Submit; Take 0; Finish 0; Yield 0]
                 [lit "a"; lit "b"] 2 false = Returned out ->
               length [Submit; Submit; Take 0; Finish 0; Yield 0]
               = 4 * length [lit "a"; lit "b"])).
Proof.
  eexists. split; [vm_compute; reflexivity|].
  eapply (pool_run_length demo_oracle [lit "a"; lit "b"] 2 false
            [Submit; Submit; Take 0; Finish 0; Yield 0]).
  vm_compute. reflexivity.
Defined.

(** X6: the pool starts the calls in the order of the input: at every
    moment the calls that have not started are those of the texts from some
    index [m] on, queued then pending in that order, and the call a worker
    takes next is the call of text [m]. *)
Theorem pool_starts_in_order (oracle : nat -> list ascii -> oracle_outcome)
  (texts : list (list ascii)) (max_workers : Z) (verbose : bool)
  (tr : list action) (s : pool) :
  pool_run oracle max_workers verbose tr (pool_init texts) = Some s ->
  exists m,
    m <= length texts
    /\ (queue s).*1 ++ (pending s).*1 = seq m (length texts - m)
    /\ forall t s',
         pool_step oracle max_workers verbose (Take t) s = Some s' ->
         exists code, texts !! m = Some code
                      /\ threads s' !! t = Some (Some (m, code)).
Proof.
  intros Hrun. pose proof (pool_run_inv _ _ _ _ _ _ Hrun) as Hinv.
  destruct (pool_run_preserves oracle max_workers verbose texts
              (pool_fifo texts) (pool_fifo_step oracle max_workers verbose texts)
              tr (pool_init texts) s (pool_inv_init oracle max_workers texts)
              (pool_fifo_init texts) Hrun) as (m & Hm & Hq).
  exists m. split; [done|]. split; [done|].
  intros t s' Hstep. cbn in Hstep.
  destruct (threads s !! t) as [[w|]|] eqn:Ht; try done.
  destruct (queue s) as [|[i code] rest] eqn:Hqs; [done|]. simplify_eq.
  cbn in Hq. destruct (length texts - m) as [|k]; [done|]. cbn in Hq.
  injection Hq as -> _. exists code. split.
  - apply (inv_items _ _ _ _ Hinv). rewrite Hqs.
    apply elem_of_app. right. apply elem_of_app. left. apply list_elem_of_here.
  - cbn. apply list_lookup_insert_eq. by eapply lookup_lt_Some.
Qed.

Lemma pool_starts_in_order_witness :
  exists s,
    pool_run demo_oracle 2 false [Submit; Submit; Submit; Take 0; Take 1]
      (pool_init [lit "a"; lit "b"; lit "c"; lit "d"]) = Some s
    /\ exists m,
         m <= length [lit "a"; lit "b"; lit "c"; lit "d"]
         /\ (queue s).*1 ++ (pending s).*1
            = seq m (length [lit "a"; lit "b"; lit "c"; lit "d"] - m)
         /\ forall t s',
              pool_step demo_oracle 2 false (Take t) s = Some s' ->
              exists code, [lit "a"; lit "b"; lit "c"; lit "d"] !! m = Some code
                           /\ threads s' !! t = Some (Some (m, code)).
Proof.
  eexists. split; [vm_compute; reflexivity|].
  apply (pool_starts_in_order demo_oracle [lit "a"; lit "b"; lit "c"; lit "d"]
           2 false [Submit; Submit; Submit; Take 0; Take 1]).
  vm_compute. reflexivity.
Defined.

(** X7: the pool starts a worker thread only to serve a submitted text:
    there are never more threads than texts submitted so far, nor than
    [max_workers], and every call in flight has a thread of its own. *)
Theorem pool_workers_bound (oracle : nat -> list ascii -> oracle_outcome)
  (texts : list (list ascii)) (max_workers : Z) (verbose : bool)
  (tr : list action) (s : pool) :
  pool_run oracle max_workers verbose tr (pool_init texts) = Some s ->
  length (threads s) + length (pending s) <= length texts
  /\ (Z.of_nat (length (threads s)) <= Z.max 0 max_workers)%Z
  /\ length (in_flight s) <= length (threads s).
Proof.
  intros Hrun. pose proof (pool_run_inv _ _ _ _ _ _ Hrun) as Hinv.
  split; [|split].
  - apply (pool_run_preserves oracle max_workers verbose texts
             (pool_spawned texts) (pool_spawned_step oracle max_workers verbose texts)
             tr (pool_init texts) s (pool_inv_init oracle max_workers texts)); [|done].
    unfold pool_spawned, pool_init, enumerate; cbn. by rewrite length_imap.
  - apply (inv_threads _ _ _ _ Hinv).
  - apply omap_id_length.
Qed.

Lemma pool_workers_bound_witness :
  exists s,
    pool_run demo_oracle 10 false [Submit; Take 0; Finish 0; Submit]
      (pool_init [lit "a"; lit "b"; lit "c"]) = Some s
    /\ (length (threads s) + length (pending s) <= length [lit "a"; lit "b"; lit "c"]
        /\ (Z.of_nat (length (threads s)) <= Z.max 0 10)%Z
        /\ length (in_flight s) <= length (threads s)).
Proof.
  eexists. split; [vm_compute; reflexivity|].
  apply (pool_workers_bound demo_oracle [lit "a"; lit "b"; lit "c"] 10 false
           [Submit; Take 0; Finish 0; Submit]).
  vm_compute. reflexivity.
Defined.

Lemma batch_Returned_printed oracle max_workers verbose texts tr out :
  batch_explain_with_gemini oracle tr texts max_workers verbose = Returned out ->
  out.2 ≡ₚ (if verbose then MsgFinished <$> seq 1 (length texts) else []).
Proof.
  intros (_ & s & Hrun & Hp & Hlen & ->)%batch_Returned. cbn.
  pose proof (pool_run_inv _ _ _ _ _ _ Hrun) as Hinv.
  rewrite (pool_run_preserves oracle max_workers verbose texts
             (pool_printed verbose) (pool_printed_step oracle max_workers verbose texts)
             tr (pool_init texts) s (pool_inv_init oracle max_workers texts)
             (pool_printed_init verbose texts) Hrun).
  destruct verbose; [|done].
  pose proof (pool_final_keys oracle max_workers texts s Hinv Hp Hlen) as Hk.
  rewrite <- fmap_S_seq, <- Hk, <- !list_fmap_compose.
  apply reflexive_eq, list_fmap_ext. intros i [j r] _. cbn.
  by rewrite Nat.add_1_r.
Qed.

Lemma pool_run_yields oracle max_workers verbose tr :
  forall s s',
    pool_run oracle max_workers verbose tr s = Some s' ->
    (results s').*1 = (results s).*1 ++ yield_order tr.
Proof.
  induction tr as [|a tr IH]; intros s s' Hrun; cbn in Hrun.
  - simplify_eq. by rewrite app_nil_r.
  - destruct (pool_step oracle max_workers verbose a s) as [s1|] eqn:Hstep; [|done].
    rewrite (IH _ _ Hrun). destruct a as [|t|t|idx]; cbn in Hstep.
    + destruct (pending s) as [|item rest]; [done|].
      destruct (idle_sem s); [destruct (_ <? _)%Z|]; by simplify_eq.
    + destruct (threads s !! t) as [[w|]|]; try done.
      destruct (queue s); [done|]. by simplify_eq.
    + destruct (threads s !! t) as [[[idx code]|]|]; try done. by simplify_eq.
    + destruct (pending s); [|done].
      destruct (finished s !! idx); [|done]. simplify_eq. cbn.
      by rewrite fmap_app, <- app_assoc.
Qed.

(** X8: with [verbose] the batch prints one line for each text, in the
    order in which [as_completed] yields the futures to the main thread:
    the line of a future carries the number of its text, counted from 1.
    The futures yielded are those of all the texts, each once, so the
    numbers are 1 to n in some order.  Without [verbose] nothing is
    printed, and the explanations returned are the same either way. *)
Theorem batch_progress_lines (oracle : nat -> list ascii -> oracle_outcome)
  (texts : list (list ascii)) (max_workers : Z) (verbose : bool)
  (tr : list action) (out : list (list ascii) * list message) :
  batch_explain_with_gemini oracle tr texts max_workers verbose = Returned out ->
  out.2 = (if verbose then (fun idx => MsgFinished (idx + 1)) <$> yield_order tr
           else [])
  /\ yield_order tr ≡ₚ seq 0 (length texts)
  /\ forall tr' out',
       batch_explain_with_gemini oracle tr' texts max_workers (negb verbose)
       = Returned out' ->
       out'.1 = out.1.
Proof.
  intros Hret.
  pose proof Hret as (_ & s & Hrun & Hp & Hlen & ->)%batch_Returned.
  pose proof (pool_run_inv _ _ _ _ _ _ Hrun) as Hinv.
  pose proof (pool_run_yields _ _ _ _ _ _ Hrun) as Hy. cbn in Hy.
  split; [|split].
  - cbn [snd].
    rewrite (pool_run_preserves oracle max_workers verbose texts
               (pool_printed verbose) (pool_printed_step oracle max_workers verbose texts)
               tr (pool_init texts) s (pool_inv_init oracle max_workers texts)
               (pool_printed_init verbose texts) Hrun).
    destruct verbose; [|done]. by rewrite <- Hy, <- list_fmap_compose.
  - rewrite <- Hy. by apply (pool_final_keys oracle max_workers texts).
  - intros tr' out' Hret'.
    rewrite (batch_Returned_values _ _ _ _ _ _ Hret).
    by rewrite (batch_Returned_values _ _ _ _ _ _ Hret').
Qed.

(** One worker: the call of the first text finishes before the call of the
    second, the futures are yielded in the other order, and the line of the
    second text is printed first. *)
Lemma batch_progress_lines_witness :
  exists out,
    batch_explain_with_gemini demo_oracle
      [Submit; Submit; Take 0; Finish 0; Take 0; Finish 0; Yield 1; Yield 0]
      [lit "a"; lit "b"] 1 true = Returned out
    /\ out.2 = [MsgFinished 2; MsgFinished 1]
    /\ (out.2 = (if true
                 then (fun idx => MsgFinished (idx + 1))
                        <$> yield_order [Submit; Submit; Take 0; Finish 0; Take 0;
                                         Finish 0; Yield 1; Yield 0]
                 else [])
        /\ yield_order [Submit; Submit; Take 0; Finish 0; Take 0; Finish 0;
                        Yield 1; Yield 0] ≡ₚ seq 0 (length [lit "a"; lit "b"])
        /\ forall tr' out',
             batch_explain_with_gemini demo_oracle tr' [lit "a"; lit "b"] 1
               (negb true) = Returned out' ->
             out'.1 = out.1).
Proof.
  eexists. split; [vm_compute; reflexivity|]. split; [reflexivity|].
  apply (batch_progress_lines demo_oracle [lit "a"; lit "b"] 1 true
           [Submit; Submit; Take 0; Finish 0; Take 0; Finish 0; Yield 1; Yield 0]).
  vm_compute. reflexivity.
Defined.



(** ** The files and the console *)

Lemma output_name_no_slash path : "/"%char ∉ output_name path.
Proof.
  rewrite output_name_map. intros Hin.
  apply list_elem_of_fmap in Hin as (x & Hx & _).
  destruct (one_of unsafe_chars x) eqn:Hu; [done|].
  subst x. vm_compute in Hu. discriminate.
Qed.

Lemma md_path_output name :
  "/"%char ∉ name -> md_path (lit "output") name = lit "output/" ++ name ++ lit ".md".
Proof.
  intros Hn. unfold md_path, path_join.
  assert (PyStr.startswith (lit "/") (name ++ lit ".md") = false) as ->.
  { destruct name as [|c name]; [reflexivity|].
    change (PyStr.startswith (lit "/") ((c :: name) ++ lit ".md"))
      with (Ascii.eqb "/" c && true).
    destruct (Ascii.eqb "/" c) eqn:Hc; [|done].
    apply Ascii.eqb_eq in Hc. subst c. exfalso. apply Hn. apply list_elem_of_here. }
  reflexivity.
Qed.

Lemma write_saved_insert fs sv :
  "/"%char ∉ saved_name sv ->
  write_saved fs sv = <[saved_path sv := saved_content sv]> fs.
Proof.
  intros Hn. unfold write_saved, save_output. by rewrite md_path_output.
Qed.

Lemma saved_path_inj sv sv' : saved_path sv = saved_path sv' -> saved_name sv = saved_name sv'.
Proof.
  unfold saved_path. intros H%app_inv_head. by apply app_inv_tail in H.
Qed.

Lemma files_lookup_Some (l : list Saved) :
  Forall (fun sv => "/"%char ∉ saved_name sv) l ->
  forall m k c,
    foldl write_saved m l !! k = Some c ->
    m !! k = Some c \/ exists sv, sv ∈ l /\ saved_path sv = k /\ saved_content sv = c.
Proof.
  induction 1 as [|sv l Hsv _ IH]; intros m k c; cbn; [by left|].
  intros [Hm|(sv' & Hin & Hk & Hc)]%IH.
  - rewrite write_saved_insert in Hm by done.
    apply lookup_insert_Some in Hm as [[<- <-]|[_ Hm]]; [|by left].
    right. exists sv. split; [apply list_elem_of_here|done].
  - right. exists sv'. split; [by apply list_elem_of_further|done].
Qed.

Lemma files_keep (l : list Saved) sv :
  Forall (fun sv' => "/"%char ∉ saved_name sv') l ->
  (forall sv', sv' ∈ l -> saved_name sv' <> saved_name sv) ->
  forall m, foldl write_saved m l !! saved_path sv = m !! saved_path sv.
Proof.
  induction 1 as [|y l Hy Hl IH]; intros Hne m; [done|].
  cbn. rewrite IH.
  - rewrite write_saved_insert by done. apply lookup_insert_ne.
    intros Heq%saved_path_inj. by apply (Hne y (list_elem_of_here _ _)).
  - intros sv' Hin. apply Hne. by apply list_elem_of_further.
Qed.

(** The last record saved under a name is the one the file holds. *)
Lemma files_lookup_last (l : list Saved) :
  Forall (fun sv => "/"%char ∉ saved_name sv) l ->
  forall m i sv,
    l !! i = Some sv ->
    (forall j sv', i < j -> l !! j = Some sv' -> saved_name sv' <> saved_name sv) ->
    foldl write_saved m l !! saved_path sv = Some (saved_content sv).
Proof.
  induction 1 as [|x l Hx Hl IH]; intros m i sv Hi Hlast; [done|].
  cbn [foldl]. destruct i as [|i]; cbn in Hi.
  - injection Hi as ->. rewrite files_keep; [|done|].
    + rewrite write_saved_insert by done. apply lookup_insert_eq.
    + intros sv' [j Hj]%list_elem_of_lookup. apply (Hlast (S j)); [lia|done].
  - apply (IH _ i); [done|]. intros j sv' Hj Hsv'.
    apply (Hlast (S j)); [lia|done].
Qed.

Lemma files_dom (l : list Saved) :
  Forall (fun sv => "/"%char ∉ saved_name sv) l ->
  forall m, dom (foldl write_saved m l)
            = dom m ∪ (list_to_set (saved_path <$> l) : gset (list ascii)).
Proof.
  induction 1 as [|x l Hx Hl IH]; intros m; cbn.
  - by rewrite (right_id_L ∅ (∪)).
  - rewrite IH, write_saved_insert by done. rewrite dom_insert_L.
    apply set_eq. intros k.
    rewrite !elem_of_union, ?elem_of_singleton. tauto.
Qed.

Lemma files_size (l : list Saved) :
  Forall (fun sv => "/"%char ∉ saved_name sv) l ->
  forall m, size (foldl write_saved m l) <= size m + length l.
Proof.
  induction 1 as [|x l Hx Hl IH]; intros m; cbn; [lia|].
  etransitivity; [apply IH|]. rewrite write_saved_insert by done.
  rewrite map_size_insert. destruct (m !! saved_path x); cbn; lia.
Qed.

Lemma saved_names_safe e valid :
  Forall (fun sv => "/"%char ∉ saved_name sv) (imap (saved_of e) valid).
Proof.
  apply Forall_forall. intros sv [i Hi]%list_elem_of_lookup.
  rewrite list_lookup_imap in Hi. destruct (valid !! i) as [pc|]; [|done].
  cbn in Hi. injection Hi as <-. apply output_name_no_slash.
Qed.

(** X10: every file [main] writes is [output/<name>.md] for the name of a
    saved record, a name without a slash, so that the file lies in the
    output directory itself; when several records have the same name the
    file holds the last of them; there are no more files than valid items,
    and none exactly when there is no valid item. *)
Theorem files_written (a : Args) (e : Env) (o : Outcome) :
  main a e = Returned o ->
  (forall p, is_Some (out_files o !! p) <->
             exists sv, sv ∈ out_saved o
                        /\ p = lit "output/" ++ saved_name sv ++ lit ".md")
  /\ Forall (fun sv => "/"%char ∉ saved_name sv) (out_saved o)
  /\ (forall p c, out_files o !! p = Some c ->
        exists sv, sv ∈ out_saved o
                   /\ p = lit "output/" ++ saved_name sv ++ lit ".md"
                   /\ c = md_content (saved_explanation sv) (saved_extracted sv))
  /\ (forall i sv,
        out_saved o !! i = Some sv ->
        (forall j sv', i < j -> out_saved o !! j = Some sv' ->
                       saved_name sv' <> saved_name sv) ->
        out_files o !! (lit "output/" ++ saved_name sv ++ lit ".md")
        = Some (md_content (saved_explanation sv) (saved_extracted sv)))
  /\ size (out_files o) <= length (out_valid_js o)
  /\ (out_files o = ∅ <-> out_valid_js o = []).
Proof.
  intros Hm.
  destruct (main_Returned _ _ _ Hm) as (_ & _ & _ & Hs & Hfs & _).
  pose proof (saved_names_safe e (out_valid_js o)) as Hsafe. rewrite <- Hs in Hsafe.
  assert (Hdom : forall p, is_Some (out_files o !! p) <->
             exists sv, sv ∈ out_saved o
                        /\ p = lit "output/" ++ saved_name sv ++ lit ".md").
  { intros p. rewrite <- elem_of_dom, Hfs, files_dom by done.
    rewrite dom_empty_L, (left_id_L ∅ (∪)), elem_of_list_to_set, list_elem_of_fmap.
    split; intros (sv & ? & ?); by exists sv. }
  split; [exact Hdom|]. split; [done|]. split; [|split; [|split]].
  - intros p c Hp. rewrite Hfs in Hp.
    destruct (files_lookup_Some _ Hsafe _ _ _ Hp) as [Hp'|(sv & Hin & <- & <-)].
    + by rewrite lookup_empty in Hp'.
    + by exists sv.
  - intros i sv Hi Hlast. rewrite Hfs. by apply (files_lookup_last _ Hsafe ∅ i).
  - rewrite Hfs. etransitivity; [by apply files_size|].
    rewrite map_size_empty, Hs, length_imap. lia.
  - split.
    + intros Hempty. destruct (out_valid_js o) as [|pc valid] eqn:Hv; [done|].
      exfalso. rewrite Hs in Hdom. cbn in Hdom.
      destruct (proj2 (Hdom (saved_path (saved_of e 0 pc)))) as [c Hc].
      { eexists. split; [apply list_elem_of_here|done]. }
      by rewrite Hempty, lookup_empty in Hc.
    + intros Hv. rewrite Hfs, Hs, Hv. done.
Qed.

Lemma files_written_witness :
  exists o, main demo_args demo_env = Returned o
    /\ ((forall p, is_Some (out_files o !! p) <->
                   exists sv, sv ∈ out_saved o
                              /\ p = lit "output/" ++ saved_name sv ++ lit ".md")
        /\ Forall (fun sv => "/"%char ∉ saved_name sv) (out_saved o)
        /\ (forall p c, out_files o !! p = Some c ->
              exists sv, sv ∈ out_saved o
                         /\ p = lit "output/" ++ saved_name sv ++ lit ".md"
                         /\ c = md_content (saved_explanation sv) (saved_extracted sv))
        /\ (forall i sv,
              out_saved o !! i = Some sv ->
              (forall j sv', i < j -> out_saved o !! j = Some sv' ->
                             saved_name sv' <> saved_name sv) ->
              out_files o !! (lit "output/" ++ saved_name sv ++ lit ".md")
              = Some (md_content (saved_explanation sv) (saved_extracted sv)))
        /\ size (out_files o) <= length (out_valid_js o)
        /\ (out_files o = ∅ <-> out_valid_js o = [])).
Proof.
  eexists. split; [vm_compute; reflexivity|].
  apply (files_written demo_args demo_env). vm_compute. reflexivity.
Defined.

(** ** The record of an item whose call of the oracle failed *)

(** The text of a file, line by line. *)
Lemma md_content_lines explanation extracted :
  md_content explanation extracted
  = lit "## AI Explanation" ++ [newline] ++ explanation ++ [newline]
    ++ [newline] ++ lit "## Extracted URLs:" ++ [newline]
    ++ PyStr.join [newline] (urls extracted) ++ [newline]
    ++ [newline] ++ lit "## Extracted Tokens:" ++ [newline]
    ++ PyStr.join [newline] (tokens extracted) ++ [newline].
Proof. unfold md_content. by rewrite <- !app_assoc. Qed.

(** Two runs of saves that differ only in records written to [k] leave the
    same text in every other file. *)
Lemma files_agree_except (k : list ascii) (l l' : list Saved) :
  Forall2 (fun sv sv' => ("/"%char ∉ saved_name sv) /\ ("/"%char ∉ saved_name sv')
                         /\ (sv = sv' \/ (saved_path sv = k /\ saved_path sv' = k)))
          l l' ->
  forall m m' p,
    p <> k -> m !! p = m' !! p ->
    foldl write_saved m l !! p = foldl write_saved m' l' !! p.
Proof.
  induction 1 as [|sv sv' l l' (Hs & Hs' & Hsv) _ IH]; intros m m' p Hp Hm; [done|].
  cbn [foldl]. apply IH; [done|]. rewrite !write_saved_insert by done.
  destruct Hsv as [<-|[Hk Hk']].
  - destruct (decide (saved_path sv = p)) as [<-|Hne].
    + by rewrite !lookup_insert_eq.
    + by rewrite !lookup_insert_ne.
  - rewrite !lookup_insert_ne by congruence. done.
Qed.

(** C4: when the call of the oracle for a valid item raises, the item is
    still saved, once, at its own place, with the error text as its
    explanation, and its file is written: the file holds the error text in
    the place of the explanation, followed by the findings of the item,
    unless a later item derives the same name and overwrites it.  Whatever
    the oracle does in that call, under any schedule of the pool, the
    records of the other items are the same, and so is every file but the
    one of that name. *)
Theorem oracle_fault_in_band (a : Args) (e : Env) (o : Outcome) (i : nat)
  (path code cause : list ascii) :
  main a e = Returned o ->
  out_valid_js o !! i = Some (path, code) ->
  oracle e i (prompt_head ++ beautify_js e code ++ prompt_tail) = OracleRaise cause ->
  length (out_saved o) = length (out_valid_js o)
  /\ out_saved o !! i =
     Some {| saved_name := output_name path;
             saved_explanation := lit "[ERROR] Gemini failed: " ++ cause;
             saved_extracted := extract_info (hash_order e) code |}
  /\ is_Some (out_files o !! (lit "output/" ++ output_name path ++ lit ".md"))
  /\ ((forall j p c, i < j -> out_valid_js o !! j = Some (p, c) ->
                     output_name p <> output_name path) ->
      out_files o !! (lit "output/" ++ output_name path ++ lit ".md")
      = Some (lit "## AI Explanation" ++ [newline]
              ++ (lit "[ERROR] Gemini failed: " ++ cause) ++ [newline]
              ++ [newline] ++ lit "## Extracted URLs:" ++ [newline]
              ++ PyStr.join [newline] (urls (extract_info (hash_order e) code))
              ++ [newline]
              ++ [newline] ++ lit "## Extracted Tokens:" ++ [newline]
              ++ PyStr.join [newline] (tokens (extract_info (hash_order e) code))
              ++ [newline]))
  /\ forall orc tr o',
       (forall j p, j <> i -> orc j p = oracle e j p) ->
       main a (with_oracle e orc tr) = Returned o' ->
       length (out_saved o') = length (out_saved o)
       /\ (forall j, j <> i -> out_saved o' !! j = out_saved o !! j)
       /\ (forall p, p <> lit "output/" ++ output_name path ++ lit ".md" ->
                     out_files o' !! p = out_files o !! p).
Proof.
  intros Hm Hi Horc.
  destruct (main_Returned _ _ _ Hm) as (Hv & _ & _ & Hs & Hfs & _).
  pose proof (saved_names_safe e (out_valid_js o)) as Hsafe. rewrite <- Hs in Hsafe.
  assert (Hrec : out_saved o !! i =
     Some {| saved_name := output_name path;
             saved_explanation := lit "[ERROR] Gemini failed: " ++ cause;
             saved_extracted := extract_info (hash_order e) code |}).
  { rewrite Hs, list_lookup_imap, Hi. cbn. unfold saved_of, explain_with_gemini.
    cbn [fst snd]. by rewrite Horc. }
  split; [by rewrite Hs, length_imap|]. split; [exact Hrec|]. split; [|split].
  - apply elem_of_dom. rewrite Hfs, files_dom, dom_empty_L by done.
    apply elem_of_union. right. apply elem_of_list_to_set, list_elem_of_fmap.
    eexists. split; [|by eapply list_elem_of_lookup_2]. reflexivity.
  - intros Hlast. rewrite Hfs, <- md_content_lines.
    apply (files_lookup_last _ Hsafe ∅ i _ Hrec).
    intros j sv' Hj Hsv'. rewrite Hs, list_lookup_imap in Hsv'.
    destruct (out_valid_js o !! j) as [[p c]|] eqn:Hvj; [|done].
    injection Hsv' as <-. cbn. by apply (Hlast j p c).
  - intros orc tr o' Hsame Hm'.
    destruct (main_Returned _ _ _ Hm') as (Hv' & _ & _ & Hs' & Hfs' & _).
    rewrite raw_results_with_oracle, <- Hv in Hv'.
    assert (Hlen : length (out_saved o') = length (out_saved o)).
    { by rewrite Hs', Hs, Hv', !length_imap. }
    assert (Hother : forall j, j <> i -> out_saved o' !! j = out_saved o !! j).
    { intros j Hj. rewrite Hs', Hs, Hv', !list_lookup_imap.
      destruct (out_valid_js o !! j) as [[p c]|]; [|done]. cbn.
      unfold saved_of, explain_with_gemini. cbn. by rewrite Hsame. }
    split; [done|]. split; [done|].
    intros p Hp. rewrite Hfs', Hfs.
    apply (files_agree_except (lit "output/" ++ output_name path ++ lit ".md"));
      [|done|done].
    apply Forall2_same_length_lookup_2; [done|].
    intros j sv' sv Hsv' Hsv.
    pose proof (saved_names_safe (with_oracle e orc tr) (out_valid_js o')) as Hsafe'.
    rewrite <- Hs' in Hsafe'.
    split; [by eapply (Forall_lookup_1 _ _ _ _ Hsafe')|].
    split; [by eapply (Forall_lookup_1 _ _ _ _ Hsafe)|].
    destruct (decide (j = i)) as [->|Hj].
    + right. rewrite Hrec in Hsv. injection Hsv as <-.
      rewrite Hs', Hv', list_lookup_imap, Hi in Hsv'. injection Hsv' as <-.
      done.
    + left. rewrite (Hother j Hj) in Hsv'. congruence.
Qed.

Lemma oracle_fault_witness :
  exists o, main demo_args demo_env = Returned o
    /\ (length (out_saved o) = length (out_valid_js o)
        /\ out_saved o !! 1 =
           Some {| saved_name := output_name (lit "lib/b.js?v=2");
                   saved_explanation :=
                     lit "[ERROR] Gemini failed: " ++ lit "quota exceeded";
                   saved_extracted :=
                     extract_info (hash_order demo_env) (lit "fetch('https://x.io/v1')") |}
        /\ is_Some (out_files o !! (lit "output/"
                                    ++ output_name (lit "lib/b.js?v=2") ++ lit ".md"))
        /\ ((forall j p c, 1 < j -> out_valid_js o !! j = Some (p, c) ->
                           output_name p <> output_name (lit "lib/b.js?v=2")) ->
            out_files o !! (lit "output/" ++ output_name (lit "lib/b.js?v=2")
                            ++ lit ".md")
            = Some (lit "## AI Explanation" ++ [newline]
                    ++ (lit "[ERROR] Gemini failed: " ++ lit "quota exceeded")
                    ++ [newline]
                    ++ [newline] ++ lit "## Extracted URLs:" ++ [newline]
                    ++ PyStr.join [newline]
                         (urls (extract_info (hash_order demo_env)
                                  (lit "fetch('https://x.io/v1')")))
                    ++ [newline]
                    ++ [newline] ++ lit "## Extracted Tokens:" ++ [newline]
                    ++ PyStr.join [newline]
                         (tokens (extract_info (hash_order demo_env)
                                    (lit "fetch('https://x.io/v1')")))
                    ++ [newline]))
        /\ forall orc tr o',
             (forall j p, j <> 1 -> orc j p = oracle demo_env j p) ->
             main demo_args (with_oracle demo_env orc tr) = Returned o' ->
             length (out_saved o') = length (out_saved o)
             /\ (forall j, j <> 1 -> out_saved o' !! j = out_saved o !! j)
             /\ (forall p, p <> lit "output/" ++ output_name (lit "lib/b.js?v=2")
                                ++ lit ".md" ->
                           out_files o' !! p = out_files o !! p)).
Proof.
  eexists. split; [vm_compute; reflexivity|].
  apply (oracle_fault_in_band demo_args demo_env _ 1); vm_compute; reflexivity.
Defined.

(** In the example run the file of the item whose call failed holds the
    error text; the findings follow. *)
Example oracle_fault_file :
  exists o, main demo_args demo_env = Returned o
    /\ out_files o !! lit "output/b.md"
       = Some (lit "## AI Explanation" ++ [newline]
               ++ lit "[ERROR] Gemini failed: quota exceeded" ++ [newline]
               ++ [newline] ++ lit "## Extracted URLs:" ++ [newline]
               ++ lit "https://x.io/v1" ++ [newline]
               ++ [newline] ++ lit "## Extracted Tokens:" ++ [newline]
               ++ [newline]).
Proof. eexists. split; vm_compute; reflexivity. Qed.

(** When a later item derives the same name the file is overwritten: the
    error text of the first item is in the saved records and in no file. *)
Example oracle_fault_overwritten :
  exists o, main demo_args clash_env = Returned o
    /\ saved_explanation <$> out_saved o
       = [lit "[ERROR] Gemini failed: quota exceeded"; lit "nothing to report"]
    /\ saved_name <$> out_saved o = [lit "a"; lit "a"]
    /\ map_to_list (out_files o)
       = [(lit "output/a.md",
           lit "## AI Explanation" ++ [newline]
           ++ lit "nothing to report" ++ [newline]
           ++ [newline] ++ lit "## Extracted URLs:" ++ [newline] ++ [newline]
           ++ [newline] ++ lit "## Extracted Tokens:" ++ [newline] ++ [newline])].
Proof. eexists. split; [vm_compute; reflexivity|]. repeat split; vm_compute; reflexivity. Qed.

(** X11: what [main] prints.  A run that stops early prints the one line of
    its cause, also when it is quiet.  A run with a valid item prints, unless
    it is quiet, the errored items, the two lines before the batch, a line
    for each saved file when it is verbose, and the closing line; the lines
    of progress of the batch depend on [verbose] only, so that a run both
    quiet and verbose prints them and nothing else. *)
Theorem main_stdout (a : Args) (e : Env) (o : Outcome) :
  main a e = Returned o ->
  match out_valid_js o with
  | [] =>
      stdout o =
      if negb (input_exists e) then [MsgInputNotFound]
      else match read_paths (input_lines e) with
           | [] => [MsgNoPaths]
           | _ :: _ => skipped_lines a (out_errored o) ++ [MsgNoValid]
           end
  | _ :: _ =>
      exists progress,
        progress ≡ₚ (if verbose a
                     then MsgFinished <$> seq 1 (length (out_valid_js o)) else [])
        /\ stdout o =
           skipped_lines a (out_errored o)
           ++ (if quiet a then []
               else [MsgSending (length (out_valid_js o)) (clamp_threads (thread a));
                     MsgMayTakeTime])
           ++ progress
           ++ saved_messages a (out_valid_js o)
           ++ (if quiet a then [] else [MsgDone])
  end.
Proof.
  unfold main, skipped_lines.
  destruct (input_exists e); cbn [negb].
  2:{ by intros [= <-]. }
  destruct (read_paths (input_lines e)) as [|p ps] eqn:Hps.
  { by intros [= <-]. }
  destruct (gather_all _ _ _) as [raw|] eqn:Hg; [|done].
  destruct (valid_of raw) as [|v vs] eqn:Hv.
  { intros [= <-]. cbn. by rewrite ?Hv. }
  rewrite <- Hv. set (valid := valid_of raw).
  destruct (batch_explain_with_gemini _ _ _ _ _) as [b|msg|] eqn:Hb;
    cbn [run_bind]; [|done|done].
  pose proof (batch_Returned_values _ _ _ _ _ _ Hb) as Hb1.
  pose proof (batch_Returned_printed _ _ _ _ _ _ Hb) as Hb2.
  change (b.1) with ([] ++ b.1).
  rewrite save_loop_spec; [|done|by rewrite Hb1, length_imap, length_map].
  cbn [run_bind]. intros [= <-]. cbn [out_valid_js stdout out_errored fst snd].
  subst valid. rewrite Hv. rewrite <- Hv.
  exists b.2. split.
  - rewrite Hb2, length_map. done.
  - rewrite length_map, <- !app_assoc. done.
Qed.

Lemma main_stdout_witness :
  exists o, main demo_args demo_env = Returned o
    /\ match out_valid_js o with
       | [] =>
           stdout o =
           if negb (input_exists demo_env) then [MsgInputNotFound]
           else match read_paths (input_lines demo_env) with
                | [] => [MsgNoPaths]
                | _ :: _ => skipped_lines demo_args (out_errored o) ++ [MsgNoValid]
                end
       | _ :: _ =>
           exists progress,
             progress ≡ₚ (if verbose demo_args
                          then MsgFinished <$> seq 1 (length (out_valid_js o))
                          else [])
             /\ stdout o =
                skipped_lines demo_args (out_errored o)
                ++ (if quiet demo_args then []
                    else [MsgSending (length (out_valid_js o))
                            (clamp_threads (thread demo_args));
                          MsgMayTakeTime])
                ++ progress
                ++ saved_messages demo_args (out_valid_js o)
                ++ (if quiet demo_args then [] else [MsgDone])
       end.
Proof.
  eexists. split; [vm_compute; reflexivity|].
  apply (main_stdout demo_args demo_env). vm_compute. reflexivity.
Defined.

(** ** The report of a fetched text that begins with the marker *)

(** The lines about skipped items are those of the errored items, and they
    are printed when the run is not quiet only. *)
Lemma main_skipped_iff a e o p t :
  main a e = Returned o ->
  MsgSkipped p t ∈ stdout o <-> quiet a = false /\ (p, t) ∈ out_errored o.
Proof.
  assert (Hskip : forall errored,
             MsgSkipped p t ∈ (if quiet a then []
                               else map (fun pe => MsgSkipped pe.1 pe.2) errored)
             <-> quiet a = false /\ (p, t) ∈ errored).
  { intros errored. destruct (quiet a).
    - split; [by intros ?%elem_of_nil|by intros [? _]].
    - change (map ?f ?l) with (f <$> l). rewrite list_elem_of_fmap. split.
      + intros ([p' t'] & [= -> ->] & Hin). done.
      + intros [_ Hin]. by exists (p, t). }
  unfold main.
  destruct (input_exists e); cbn [negb].
  2:{ intros [= <-]. cbn. split.
      - intros [?|?%elem_of_nil]%elem_of_cons; done.
      - by intros [_ ?%elem_of_nil]. }
  destruct (read_paths (input_lines e)) as [|p0 ps] eqn:Hps.
  { intros [= <-]. cbn. split.
    - intros [?|?%elem_of_nil]%elem_of_cons; done.
    - by intros [_ ?%elem_of_nil]. }
  destruct (gather_all _ _ _) as [raw|] eqn:Hg; [|done].
  destruct (valid_of raw) as [|v0 vs] eqn:Hv.
  { intros [= <-]. cbn [stdout out_errored early]. rewrite elem_of_app, Hskip.
    split; [|tauto]. intros [?|[?|?%elem_of_nil]%elem_of_cons]; done. }
  rewrite <- Hv. set (valid := valid_of raw).
  destruct (batch_explain_with_gemini _ _ _ _ _) as [b|msg|] eqn:Hb;
    cbn [run_bind]; [|done|done].
  pose proof (batch_Returned_values _ _ _ _ _ _ Hb) as Hb1.
  pose proof (batch_Returned_printed _ _ _ _ _ _ Hb) as Hb2.
  change (b.1) with ([] ++ b.1).
  rewrite save_loop_spec; [|done|by rewrite Hb1, length_imap, length_map].
  cbn [run_bind]. intros [= <-]. cbn [out_valid_js stdout out_errored fst snd].
  rewrite !elem_of_app, Hskip. split; [|tauto].
  intros [[[[?|Hin]|Hin]|Hin]|Hin]; [done|exfalso..].
  - destruct (quiet a); [by apply elem_of_nil in Hin|].
    apply elem_of_cons in Hin as [?|Hin]; [done|].
    apply elem_of_cons in Hin as [?|Hin]; [done|]. by apply elem_of_nil in Hin.
  - rewrite Hb2 in Hin. destruct (verbose a); [|by apply elem_of_nil in Hin].
    by apply list_elem_of_fmap in Hin as (? & ? & _).
  - unfold saved_messages in Hin.
    destruct (verbose a && negb (quiet a)); [|by apply elem_of_nil in Hin].
    by apply list_elem_of_fmap in Hin as (? & ? & _).
  - destruct (quiet a); [by apply elem_of_nil in Hin|].
    apply elem_of_cons in Hin as [?|Hin]; [done|]. by apply elem_of_nil in Hin.
Qed.

(** C10, as amended: the valid items and the errored items are told apart
    by the prefix of the returned text and by nothing else; so an item whose
    fetch succeeds with a text that begins with the marker of errors is
    classified as a fetch error: it is among the errored items and not among
    the valid items, it is printed as skipped exactly when the run is not
    quiet, and only the valid items are beautified, sent to the oracle and
    saved. *)
Theorem error_prefix_classifies (a : Args) (e : Env) (o : Outcome) (i : nat)
  (path text : list ascii) :
  main a e = Returned o ->
  input_exists e = true ->
  read_paths (input_lines e) !! i = Some path ->
  fetch_result (world e i) path = Content text ->
  is_error text = true ->
  (forall pc, pc ∈ out_valid_js o <->
              pc ∈ raw_results_of e /\ is_error pc.2 = false)
  /\ (forall pc, pc ∈ out_errored o <->
                 pc ∈ raw_results_of e /\ is_error pc.2 = true)
  /\ (path, text) ∈ out_errored o
  /\ ((path, text) ∉ out_valid_js o)
  /\ (MsgSkipped path text ∈ stdout o <-> quiet a = false)
  /\ out_beautified o = (fun pc => beautify_js e pc.2) <$> out_valid_js o
  /\ out_saved o = imap (saved_of e) (out_valid_js o).
Proof.
  intros Hm Hin Hp Hf Herr.
  destruct (main_Returned _ _ _ Hm) as (Hv & He & Hb & Hs & _ & Hq).
  pose proof (raw_results_lookup e i path Hin Hp) as Hraw.
  rewrite get_js_content_fetch_result, Hf in Hraw.
  assert ((path, text) ∈ out_errored o) as Hin_e.
  { rewrite He. by apply errored_of_elem. }
  split; [intros pc; rewrite Hv; apply valid_of_elem|].
  split; [intros pc; rewrite He; apply errored_of_elem|].
  repeat split; try done.
  - rewrite Hv. intros [_ Hne]%valid_of_elem.
    change (is_error text = false) in Hne. congruence.
  - by intros [? _]%(main_skipped_iff a e o path text Hm).
  - intros Hquiet. by apply (main_skipped_iff a e o path text Hm).
Qed.

Lemma error_prefix_witness :
  exists o, main demo_args demo_env = Returned o
    /\ ((forall pc, pc ∈ out_valid_js o <->
                    pc ∈ raw_results_of demo_env /\ is_error pc.2 = false)
        /\ (forall pc, pc ∈ out_errored o <->
                       pc ∈ raw_results_of demo_env /\ is_error pc.2 = true)
        /\ (lit "e.js", lit "[ERROR] is how this file begins") ∈ out_errored o
        /\ ((lit "e.js", lit "[ERROR] is how this file begins") ∉ out_valid_js o)
        /\ (MsgSkipped (lit "e.js") (lit "[ERROR] is how this file begins") ∈ stdout o
            <-> quiet demo_args = false)
        /\ out_beautified o = (fun pc => beautify_js demo_env pc.2) <$> out_valid_js o
        /\ out_saved o = imap (saved_of demo_env) (out_valid_js o)).
Proof.
  eexists. split; [vm_compute; reflexivity|].
  apply (error_prefix_classifies demo_args demo_env _ 2);
    vm_compute; reflexivity.
Defined.

(** C10 as stated fails: in a quiet run on the example input the fetch of
    [e.js] yields a content that begins with the marker, the item is among
    the errored items, and nothing at all is printed about it. *)
Lemma error_prefix_unreported :
  exists o, main quiet_args demo_env = Returned o
    /\ read_paths (input_lines demo_env) !! 2 = Some (lit "e.js")
    /\ fetch_result (world demo_env 2) (lit "e.js")
       = Content (lit "[ERROR] is how this file begins")
    /\ out_errored o !! 1 = Some (lit "e.js", lit "[ERROR] is how this file begins")
    /\ stdout o = [].
Proof.
  eexists. split; [vm_compute; reflexivity|].
  repeat split; vm_compute; reflexivity.
Qed.

(** ** More on the name of an output *)

Lemma startswith_spec p s :
  PyStr.startswith p s = true <-> exists r, s = p ++ r.
Proof.
  revert s. induction p as [|a p IH]; intros s; cbn.
  - split; [by exists s|done].
  - destruct s as [|b s].
    + split; [done|]. by intros (r & ?).
    + rewrite andb_true_iff, Ascii.eqb_eq, IH. split.
      * intros [-> (r & ->)]. by exists r.
      * intros (r & [= -> ->]). split; [done|by exists r].
Qed.

Lemma has_slash_spec s : existsb (Ascii.eqb "/") s = true <-> "/"%char ∈ s.
Proof.
  rewrite existsb_exists. split.
  - intros (x & Hx & ->%Ascii.eqb_eq). by apply list_elem_of_In.
  - intros Hin. exists "/"%char. split; [by apply list_elem_of_In|done].
Qed.

Lemma basename_plain seg : "/"%char ∉ seg -> PyStr.basename seg = seg.
Proof.
  intros Hn. destruct seg as [|c seg]; [done|]. cbn [PyStr.basename].
  destruct (existsb _ _) eqn:Hs; [|done]. by apply has_slash_spec in Hs.
Qed.

Lemma basename_dir dir seg :
  "/"%char ∉ seg -> PyStr.basename (dir ++ "/"%char :: seg) = seg.
Proof.
  intros Hn. induction dir as [|c dir IH].
  - cbn [app PyStr.basename].
    assert (existsb (Ascii.eqb "/") ("/"%char :: seg) = true) as ->
      by (apply has_slash_spec, list_elem_of_here).
    by apply basename_plain.
  - cbn [app PyStr.basename].
    assert (existsb (Ascii.eqb "/") (c :: dir ++ "/"%char :: seg) = true) as ->.
    { apply has_slash_spec. apply list_elem_of_further, elem_of_app. right.
      apply list_elem_of_here. }
    exact IH.
Qed.

Lemma split_first_plain sep s : sep ∉ s -> PyStr.split_first sep s = s.
Proof.
  induction s as [|c s IH]; intros Hn; cbn; [done|].
  destruct (Ascii.eqb c sep) eqn:Hc.
  - apply Ascii.eqb_eq in Hc. subst c. exfalso. apply Hn, list_elem_of_here.
  - rewrite IH; [done|]. intros Hin. by apply Hn, list_elem_of_further.
Qed.

Lemma split_first_query sep s q :
  sep ∉ s -> PyStr.split_first sep (s ++ sep :: q) = s.
Proof.
  induction s as [|c s IH]; intros Hn; cbn.
  - by rewrite Ascii.eqb_refl.
  - destruct (Ascii.eqb c sep) eqn:Hc.
    + apply Ascii.eqb_eq in Hc. subst c. exfalso. apply Hn, list_elem_of_here.
    + rewrite IH; [done|]. intros Hin. by apply Hn, list_elem_of_further.
Qed.

(** X12: the name of an output depends on the final segment of the path
    only, and not on a query string without a slash; when the query string
    holds a slash, it is what follows the last slash of the query that is
    named. *)
Theorem output_name_segment (dir seg q : list ascii) :
  "/"%char ∉ seg -> "?"%char ∉ seg ->
  output_name (dir ++ "/"%char :: seg) = output_name seg
  /\ ("/"%char ∉ q ->
      output_name (dir ++ "/"%char :: seg ++ "?"%char :: q) = output_name seg
      /\ output_name (seg ++ "?"%char :: q) = output_name seg)
  /\ (forall q', output_name (dir ++ "/"%char :: q' ++ "/"%char :: seg)
                 = output_name seg).
Proof.
  intros Hs Hq. unfold output_name, output_base. split; [|split].
  - by rewrite basename_dir, basename_plain.
  - intros Hnq.
    assert (Hn : "/"%char ∉ seg ++ "?"%char :: q).
    { intros [?|[?|?]%elem_of_cons]%elem_of_app; done. }
    rewrite basename_dir, !basename_plain by done.
    by rewrite split_first_query, split_first_plain.
  - intros q'.
    replace (dir ++ "/"%char :: q' ++ "/"%char :: seg)
      with ((dir ++ "/"%char :: q') ++ "/"%char :: seg)
      by (by rewrite <- app_assoc).
    by rewrite basename_dir, basename_plain.
Qed.

Lemma output_name_segment_witness :
  ("/"%char ∉ lit "app.js") /\ ("?"%char ∉ lit "app.js")
  /\ (output_name (lit "http://x/static" ++ "/"%char :: lit "app.js")
      = output_name (lit "app.js")
      /\ ("/"%char ∉ lit "v=3" ->
          output_name (lit "http://x/static" ++ "/"%char :: lit "app.js"
                       ++ "?"%char :: lit "v=3") = output_name (lit "app.js")
          /\ output_name (lit "app.js" ++ "?"%char :: lit "v=3")
             = output_name (lit "app.js"))
      /\ (forall q', output_name (lit "http://x/static" ++ "/"%char :: q'
                                  ++ "/"%char :: lit "app.js")
                     = output_name (lit "app.js"))).
Proof.
  assert (H1 : "/"%char ∉ lit "app.js").
  { intros H%has_slash_spec. vm_compute in H. discriminate. }
  assert (H2 : "?"%char ∉ lit "app.js").
  { intros H%list_elem_of_In. vm_compute in H. intuition discriminate. }
  split; [exact H1|]. split; [exact H2|].
  exact (output_name_segment (lit "http://x/static") (lit "app.js") (lit "v=3") H1 H2).
Defined.

Lemma strip_suffix_app u : strip_suffix (lit ".js") (u ++ lit ".js") = u.
Proof.
  unfold strip_suffix. rewrite rev_app_distr.
  assert (PyStr.startswith (rev (lit ".js")) (rev (lit ".js") ++ rev u) = true) as ->
    by (apply startswith_spec; by eexists).
  rewrite length_app.
  replace (length u + length (lit ".js") - length (lit ".js")) with (length u) by lia.
  apply take_app_length.
Qed.

Lemma strip_suffix_ends s :
  PyStr.startswith (rev (lit ".js")) (rev s) = true <-> exists u, s = u ++ lit ".js".
Proof.
  rewrite startswith_spec. split.
  - intros (r & Hr). exists (rev r).
    rewrite <- (rev_involutive s), Hr, rev_app_distr. by rewrite rev_involutive.
  - intros (u & ->). exists (rev u). by rewrite rev_app_distr.
Qed.

Lemma strip_suffix_cons c t :
  PyStr.startswith (lit ".js") (c :: t) = false ->
  strip_suffix (lit ".js") (c :: t) = c :: strip_suffix (lit ".js") t.
Proof.
  intros Hnot.
  destruct (PyStr.startswith (rev (lit ".js")) (rev t)) eqn:Ht.
  - apply strip_suffix_ends in Ht as (u & ->).
    by rewrite (app_comm_cons u), !strip_suffix_app.
  - unfold strip_suffix at 2. rewrite Ht. unfold strip_suffix.
    destruct (PyStr.startswith (rev (lit ".js")) (rev (c :: t))) eqn:Hct; [|done].
    exfalso. apply strip_suffix_ends in Hct as (u & Hu).
    destruct u as [|x u].
    + rewrite Hu in Hnot. vm_compute in Hnot. discriminate.
    + rewrite <- app_comm_cons in Hu. injection Hu as _ Hu.
      assert (PyStr.startswith (rev (lit ".js")) (rev t) = true) as H
        by (apply strip_suffix_ends; by exists u).
      congruence.
Qed.

Lemma replace_js_suffix s :
  inner_js s = false ->
  PyStr.replace (lit ".js") [] s = strip_suffix (lit ".js") s.
Proof.
  unfold PyStr.replace. induction s as [|c t IH]; [done|].
  cbn [inner_js]. intros [H1 H2]%orb_false_iff. cbn [PyStr.replace_go].
  destruct (PyStr.startswith (lit ".js") (c :: t)) eqn:Hst.
  - cbn [andb] in H1. apply negb_false_iff, Nat.eqb_eq in H1.
    apply startswith_spec in Hst as (r & Hr). rewrite Hr in H1.
    destruct r; [|rewrite length_app in H1; cbn in H1; lia].
    cbn in Hr. injection Hr as -> ->. reflexivity.
  - rewrite (IH H2). by rewrite strip_suffix_cons.
Qed.

(** X13: when [.js] occurs in the final segment nowhere but at its end,
    the name is the segment without that suffix, each unsafe character
    replaced by the placeholder; when it does not occur at all, the name is
    the whole segment, unsafe characters replaced. *)
Theorem output_name_suffix (path stem : list ascii) :
  inner_js (output_base path) = false ->
  (output_base path = stem ++ lit ".js" ->
   output_name path
   = (fun c => if one_of unsafe_chars c then "_"%char else c) <$> stem)
  /\ ((forall u, output_base path <> u ++ lit ".js") ->
      output_name path
      = (fun c => if one_of unsafe_chars c then "_"%char else c)
          <$> output_base path).
Proof.
  intros Hin. rewrite output_name_map, (replace_js_suffix _ Hin). split.
  - intros ->. by rewrite strip_suffix_app.
  - intros Hno. unfold strip_suffix.
    destruct (PyStr.startswith _ _) eqn:He; [|done].
    apply strip_suffix_ends in He as (u & Hu). by destruct (Hno u).
Qed.

Lemma output_name_suffix_witness :
  inner_js (output_base (lit "lib/jquery.min.js?v=3")) = false
  /\ output_name (lit "lib/jquery.min.js?v=3")
     = (fun c => if one_of unsafe_chars c then "_"%char else c)
         <$> lit "jquery.min".
Proof.
  split; [reflexivity|].
  apply (output_name_suffix (lit "lib/jquery.min.js?v=3") (lit "jquery.min")).
  - reflexivity.
  - reflexivity.
Defined.

(** ** The pattern of URLs *)

Lemma strip_lit_exact w s s1 : strip_lit false w s = Some s1 <-> s = w ++ s1.
Proof.
  revert s. induction w as [|c w IH]; intros s; cbn.
  - split; [by intros [= ->]|by intros ->].
  - destruct s as [|x s]; [done|]. unfold chr_match.
    destruct (Ascii.eqb x c) eqn:Hx.
    + apply Ascii.eqb_eq in Hx. subst x. rewrite IH. split; [by intros ->|].
      by intros [= ->].
    + apply Ascii.eqb_neq in Hx. split; [done|]. by intros [= -> _].
Qed.

Lemma strip_lit_app ic w1 w2 s :
  strip_lit ic (w1 ++ w2) s
  = match strip_lit ic w1 s with Some s1 => strip_lit ic w2 s1 | None => None end.
Proof.
  revert s. induction w1 as [|c w1 IH]; intros s; cbn; [done|].
  destruct s as [|x s]; [done|]. by destruct (chr_match ic c x).
Qed.

Lemma url_item scheme s s3 :
  s = scheme ++ s3 ->
  take (length s - length (drop_while url_char s3)) s
  = scheme ++ take_while url_char s3.
Proof.
  intros ->. rewrite length_app.
  pose proof (drop_while_length url_char s3) as Hle.
  replace (length scheme + length s3 - length (drop_while url_char s3))
    with (length scheme + (length s3 - length (drop_while url_char s3))) by lia.
  by rewrite take_app_add, take_while_take.
Qed.

Lemma match_at_url s :
  (fun m => (item url_re s m, m.2)) <$> match_at false url_re s = url_at s.
Proof.
  unfold match_at, url_re, url_at. cbn [re_match].
  change (lit "https://") with (lit "http" ++ lit "s" ++ lit "://").
  change (lit "http://") with (lit "http" ++ lit "://").
  rewrite !strip_lit_app. rewrite re_match_Lit.
  destruct (strip_lit false (lit "http") s) as [s1|] eqn:H1; [|done].
  apply strip_lit_exact in H1.
  destruct s1 as [|c s1]; [done|].
  change (strip_lit false (lit "s" ++ lit "://") (c :: s1))
    with (if chr_match false "s" c then strip_lit false (lit "://") s1 else None).
  unfold chr_match.
  destruct (Ascii.eqb c "s") eqn:Hc.
  - apply Ascii.eqb_eq in Hc. subst c. rewrite !re_match_Lit.
    destruct (strip_lit false (lit "://") s1) as [s3|] eqn:H3; [|done].
    apply strip_lit_exact in H3. rewrite rep_cls_total. unfold url_body.
    destruct (1 <=? length (take_while url_char s3)); [|done].
    cbn [fmap option_fmap option_map snd]. f_equal. f_equal.
    unfold item. cbn [has_group Lit orb]. apply url_item.
    rewrite H1, H3. reflexivity.
  - rewrite !re_match_Lit.
    destruct (strip_lit false (lit "://") (c :: s1)) as [s3|] eqn:H3; [|done].
    apply strip_lit_exact in H3. rewrite rep_cls_total. unfold url_body.
    destruct (1 <=? length (take_while url_char s3)); [|done].
    cbn [fmap option_fmap option_map snd]. f_equal. f_equal.
    unfold item. cbn [has_group Lit orb]. apply url_item.
    rewrite H1, H3. reflexivity.
Qed.

Lemma url_body_spec scheme s3 u rest :
  url_body scheme s3 = Some (u, rest) <->
  exists body, s3 = body ++ rest /\ u = scheme ++ body /\ body <> []
    /\ Forall (fun c => url_char c = true) body
    /\ match rest with [] => True | c :: _ => url_char c = false end.
Proof.
  unfold url_body. split.
  - destruct (1 <=? length (take_while url_char s3)) eqn:Hlen; [|done].
    apply Nat.leb_le in Hlen. intros [= <- <-].
    exists (take_while url_char s3). split; [by rewrite take_drop_while|].
    split; [done|]. split; [by destruct (take_while url_char s3); cbn in Hlen; [lia|]|].
    split; [apply take_while_Forall|].
    destruct (drop_while url_char s3) as [|c r] eqn:Hd; [done|].
    by apply (drop_while_head _ _ _ _ Hd).
  - intros (body & -> & -> & Hne & Hall & Hend).
    destruct (take_while_app url_char body rest Hall Hend) as [-> ->].
    destruct body; [done|]. reflexivity.
Qed.

Lemma url_at_spec s u rest : url_at s = Some (u, rest) <-> url_here s u rest.
Proof.
  unfold url_at, url_here. split.
  - destruct (strip_lit false (lit "https://") s) as [s3|] eqn:H1.
    + apply strip_lit_exact in H1.
      intros (body & -> & -> & Hne & Hall & Hend)%url_body_spec.
      exists (lit "https://"), body. rewrite H1, <- app_assoc. tauto.
    + destruct (strip_lit false (lit "http://") s) as [s3|] eqn:H2; [|done].
      apply strip_lit_exact in H2.
      intros (body & -> & -> & Hne & Hall & Hend)%url_body_spec.
      exists (lit "http://"), body. rewrite H2, <- app_assoc. tauto.
  - intros (scheme & body & -> & -> & [->| ->] & Hne & Hall & Hend).
    + rewrite <- app_assoc.
      assert (strip_lit false (lit "https://") (lit "http://" ++ body ++ rest) = None)
        as -> by reflexivity.
      assert (strip_lit false (lit "http://") (lit "http://" ++ body ++ rest)
              = Some (body ++ rest)) as -> by (by apply strip_lit_exact).
      apply url_body_spec. by exists body.
    + rewrite <- app_assoc.
      assert (strip_lit false (lit "https://") (lit "https://" ++ body ++ rest)
              = Some (body ++ rest)) as -> by (by apply strip_lit_exact).
      apply url_body_spec. by exists body.
Qed.

Lemma url_here_chars s u rest :
  url_here s u rest -> Forall (fun c => url_char c = true) u /\ 8 <= length u.
Proof.
  intros (scheme & body & _ & -> & Hs & Hne & Hall & _). split.
  - apply Forall_app. split; [|done].
    destruct Hs as [-> | ->]; apply Forall_forall; intros c Hc;
      apply list_elem_of_In in Hc; cbn in Hc;
      repeat (destruct Hc as [<-|Hc]; [reflexivity|]); done.
  - rewrite length_app. destruct body; [done|].
    destruct Hs as [-> | ->]; cbn; lia.
Qed.

(** The scan of [re.findall], for a pattern whose match at the head of a
    text is given by a function. *)
Section ScanFacts.
Variables (ic : bool) (r : regex).
Variable found_at : list ascii -> option (list ascii * list ascii).
Hypothesis match_at_found :
  forall s, (fun m => (item r s m, m.2)) <$> match_at ic r s = found_at s.
Hypothesis found_at_nil : found_at [] = None.

Lemma findall_sound s skip v :
  v ∈ findall_go ic r skip s ->
  exists pre s0 rest, s = pre ++ s0 /\ found_at s0 = Some (v, rest).
Proof.
  revert skip. induction s as [|c s IH]; intros skip; cbn [findall_go].
  - by intros ?%elem_of_nil.
  - destruct skip as [|k].
    + pose proof (match_at_found (c :: s)) as Hm.
      destruct (match_at ic r (c :: s)) as [m|]; cbn in Hm.
      * intros [->|Hin]%elem_of_cons.
        -- by exists [], (c :: s), m.2.
        -- destruct (IH _ Hin) as (pre & s0 & rest & -> & Hs0).
           by exists (c :: pre), s0, rest.
      * intros Hin. destruct (IH _ Hin) as (pre & s0 & rest & -> & Hs0).
        by exists (c :: pre), s0, rest.
    + intros Hin. destruct (IH _ Hin) as (pre & s0 & rest & -> & Hs0).
      by exists (c :: pre), s0, rest.
Qed.

Lemma findall_complete s :
  forall skip pre s0 v rest,
    s = pre ++ s0 -> found_at s0 = Some (v, rest) -> skip <= length pre ->
    (forall pre' s' v' rest',
        s = pre' ++ s' -> found_at s' = Some (v', rest') ->
        skip <= length pre' -> length pre' < length pre ->
        length pre' + (length s' - length rest') <= length pre) ->
    v ∈ findall_go ic r skip s.
Proof.
  induction s as [|c s IH]; intros skip pre s0 v rest Hs Htok Hskip Hfree.
  - symmetry in Hs. apply app_eq_nil in Hs as [-> ->]. congruence.
  - cbn [findall_go]. destruct skip as [|k].
    + pose proof (match_at_found (c :: s)) as Hm.
      destruct pre as [|p pre].
      * cbn in Hs. subst s0. rewrite Htok in Hm.
        destruct (match_at ic r (c :: s)) as [m|]; [|done].
        cbn in Hm. injection Hm as Hi _. rewrite Hi. apply list_elem_of_here.
      * cbn in Hs. injection Hs as <- Hs.
        destruct (match_at ic r (c :: s)) as [m|]; cbn in Hm.
        -- apply list_elem_of_further.
           apply (IH _ pre s0 v rest Hs Htok).
           ++ pose proof (Hfree [] (c :: s) _ _ eq_refl (eq_sym Hm)) as Hb.
              cbn in Hb. cbn. lia.
           ++ intros pre' s' v'' rest'' Hs' Htok' _ Hlt.
              pose proof (Hfree (c :: pre') s' v'' rest'') as Hb. cbn in Hb.
              rewrite Hs' in Hb. specialize (Hb eq_refl Htok'). cbn. lia.
        -- apply (IH 0 pre s0 v rest Hs Htok); [lia|].
           intros pre' s' v'' rest'' Hs' Htok' _ Hlt.
           pose proof (Hfree (c :: pre') s' v'' rest'') as Hb. cbn in Hb.
           rewrite Hs' in Hb. specialize (Hb eq_refl Htok'). cbn. lia.
    + destruct pre as [|p pre]; [cbn in Hskip; lia|].
      cbn in Hs. injection Hs as <- Hs.
      apply (IH k pre s0 v rest Hs Htok); [cbn in Hskip; lia|].
      intros pre' s' v'' rest'' Hs' Htok' Hk Hlt.
      pose proof (Hfree (c :: pre') s' v'' rest'') as Hb. cbn in Hb.
      rewrite Hs' in Hb. specialize (Hb eq_refl Htok'). cbn. lia.
Qed.
End ScanFacts.

Lemma url_at_length s u rest :
  url_at s = Some (u, rest) -> s = u ++ rest /\ 8 <= length u.
Proof.
  intros H%url_at_spec. split; [by destruct H as (? & ? & ? & _)|].
  by apply url_here_chars in H as [_ ?].
Qed.

(** X14: every string of the set of URLs occurs in the text and is
    [http://] or [https://] followed by a run of one or more characters that
    are neither white space nor a quote, as long as the text has it there;
    and such a URL of the text is in the set when it is at the start of the
    text or follows a white space or a quote, or more generally when no URL
    that starts earlier reaches beyond its start. *)
Theorem urls_characterized (o : PySet) (text : list ascii) :
  (forall u, u ∈ urls (extract_info o text) ->
             exists pre post, url_in text pre u post)
  /\ (forall pre u post,
         url_in text pre u post ->
         (forall pre' u' post',
             url_in text pre' u' post' -> length pre' < length pre ->
             length pre' + length u' <= length pre) ->
         u ∈ urls (extract_info o text))
  /\ (forall pre u post,
         url_in text pre u post ->
         match last pre with Some c => url_char c = false | None => True end ->
         u ∈ urls (extract_info o text)).
Proof.
  unfold extract_info; cbn [urls].
  assert (Hgen : forall pre u post,
             url_in text pre u post ->
             (forall pre' u' post',
                 url_in text pre' u' post' -> length pre' < length pre ->
                 length pre' + length u' <= length pre) ->
             u ∈ list_set o (findall false url_re text)).
  { intros pre u post [-> Hhere] Hfree. apply list_set_elem.
    apply (findall_complete false url_re url_at match_at_url eq_refl
             _ 0 pre (u ++ post) u post eq_refl); [by apply url_at_spec|lia|].
    intros pre' s' u' rest' Hs' Hat' _ Hlt.
    destruct (url_at_length _ _ _ Hat') as [-> Hlen].
    apply url_at_spec in Hat'.
    specialize (Hfree pre' u' rest' (conj Hs' Hat') Hlt).
    rewrite length_app. lia. }
  split; [|split].
  - intros u Hu. apply list_set_elem in Hu.
    apply (findall_sound false url_re url_at match_at_url) in Hu
      as (pre & s0 & rest & -> & Hat).
    destruct (url_at_length _ _ _ Hat) as [-> _].
    exists pre, rest. split; [done|]. by apply url_at_spec.
  - exact Hgen.
  - intros pre u post Hin Hlast. apply (Hgen pre u post Hin).
    intros pre' u' post' [Hs' Hhere'] Hlt.
    destruct Hin as [Hs _]. rewrite Hs in Hs'.
    destruct (decide (length pre' + length u' <= length pre)) as [|Hgt]; [done|].
    exfalso. apply url_here_chars in Hhere' as [Hall _].
    destruct (last pre) as [c|] eqn:Hl.
    2:{ apply last_None in Hl. subst pre. cbn in Hlt. lia. }
    apply last_Some in Hl as (pre0 & ->). rewrite length_app in Hlt, Hgt.
    cbn in Hlt, Hgt.
    assert (Hc : (pre' ++ u' ++ post') !! length pre0 = Some c).
    { rewrite <- Hs', <- app_assoc. rewrite lookup_app_r by lia.
      by rewrite Nat.sub_diag. }
    rewrite lookup_app_r in Hc by lia. rewrite lookup_app_l in Hc by lia.
    apply list_elem_of_lookup_2 in Hc.
    rewrite Forall_forall in Hall. specialize (Hall c Hc). congruence.
Qed.
